(** * memtestc/list.c: the block list and its grow/shrink control loop

    A shallow embedding of [contrib/memtestc/list.c].  The C heap is a finite
    map from addresses to [Node] records, pointers are optional addresses
    ([None] is [NULL]), and the process state (heap, standard output and the
    locals of [main]) is threaded through a state-and-exit monad.  The two
    inputs the program takes from its environment, the results of [rand()]
    and the success of each [calloc], are supplied per loop iteration. *)

From stdpp Require Import gmap list strings.
From Stdlib Require Import ZArith QArith.QArith_base Lia.
From Stdlib Require Import Init.Byte Ascii DecimalString.

Local Open Scope Z_scope.

(** * The program *)

(** ** Machine integers (LP64: 32-bit [int], 64-bit [long] and [long long]) *)

(** Two's-complement value of [z] in a signed [w]-bit integer. *)
Definition wrap (w z : Z) : Z := (z + 2 ^ (w - 1)) mod 2 ^ w - 2 ^ (w - 1).

Definition int (z : Z) : Z := wrap 32 z.
Definition llong (z : Z) : Z := wrap 64 z.

(** Conversion of an [int] argument to [size_t]. *)
Definition size_t (z : Z) : Z := z mod 2 ^ 64.

Definition INT_MAX : Z := 2 ^ 31 - 1.

(** No object is larger than [PTRDIFF_MAX] bytes: [calloc] fails on any
    larger request whatever memory is left. *)
Definition PTRDIFF_MAX : Z := 2 ^ 63 - 1.

(** [long long int lo = 1L << 30;  long long int hi = 16L << 30;] *)
Definition lo : Z := llong (1 ≪ 30).
Definition hi : Z := llong (16 ≪ 30).

Definition MiB : Z := 2 ^ 20.

(** ** Heap objects *)

Definition loc := positive.

(** A pointer to a [struct Node]; [None] is [NULL]. *)
Definition ptr := option loc.

(** [struct Node { int data; char* buf; struct Node* next; }].  The buffer a
    node points to is reached through that node only, so its bytes are kept
    with the node; [buf = None] is a [NULL] buffer pointer. *)
Record Node := mkNode {
  data : Z;
  buf : option (list Byte.byte);
  next : ptr
}.

(** What the process does to the outside world. *)
Inductive event :=
| Print (text : string)             (* printf of a literal string *)
| Printf (fmt : string) (arg : Q)   (* printf of one long double *)
| Sleep (seconds : Z)
| Usleep (useconds : Z).

(** The process state: the heap, what was written to standard output and the
    pauses taken (oldest first), and the locals of [main]. *)
Record state := mkState {
  heap : gmap loc Node;
  out : list event;
  root : ptr;
  total : Z;
  increase : Z
}.

(** The environment of one call of [newNode]: whether the [calloc] of the
    node and the [calloc] of its buffer find memory. *)
Record oracle := mkOracle { node_ok : bool; buf_ok : bool }.

(** The environment of one loop iteration: the value [rand()] returns and
    the allocator's answers (both are read by a growth step only). *)
Record input := mkInput { rnd : Z; al : oracle }.

(** ** The monad: state, [exit] and faults *)

(** [Val a s]: normal return.  [Exit c s]: the process called [exit(c)] in
    state [s].  [Fault]: undefined behaviour (a [NULL] or dangling pointer was
    dereferenced). *)
Inductive res (A : Type) :=
| Val (a : A) (s : state)
| Exit (code : Z) (s : state)
| Fault.
Arguments Val {A} a s.
Arguments Exit {A} code s.
Arguments Fault {A}.

Definition M (A : Type) : Type := state → res A.

#[global] Instance M_ret : MRet M := λ A a s, Val a s.
#[global] Instance M_bind : MBind M := λ A B f m s,
  match m s with
  | Val a s' => f a s'
  | Exit c s' => Exit c s'
  | Fault => Fault
  end.

#[global] Instance M_fmap : FMap M := λ A B f m s,
  match m s with
  | Val a s' => Val (f a) s'
  | Exit c s' => Exit c s'
  | Fault => Fault
  end.

Definition get {A} (f : state → A) : M A := λ s, Val (f s) s.
Definition put (f : state → state) : M unit := λ s, Val tt (f s).
Definition fault {A} : M A := λ _, Fault.
Definition exit {A} (c : Z) : M A := λ s, Exit c s.

Definition set_heap (h : gmap loc Node) (s : state) : state :=
  mkState h (out s) (root s) (total s) (increase s).
Definition emit (e : event) (s : state) : state :=
  mkState (heap s) (out s ++ [e]) (root s) (total s) (increase s).
Definition set_root (p : ptr) (s : state) : state :=
  mkState (heap s) (out s) p (total s) (increase s).
Definition set_total (t : Z) (s : state) : state :=
  mkState (heap s) (out s) (root s) t (increase s).
Definition set_increase (b : Z) (s : state) : state :=
  mkState (heap s) (out s) (root s) (total s) b.

(** Reading the node [p] points to. *)
Definition load (p : ptr) : M Node := λ s,
  match p with
  | None => Fault
  | Some l => match heap s !! l with Some n => Val n s | None => Fault end
  end.

(** Updating, by [f], the node [p] points to. *)
Definition store (p : ptr) (f : Node → Node) : M unit :=
  n ← load p;
  match p with
  | Some l => put (λ s, set_heap (<[l := f n]> (heap s)) s)
  | None => fault
  end.

(** [calloc(1, sizeof(struct Node))]: a zeroed node at an unused address, or
    [NULL]. *)
Definition calloc_node (ok : bool) : M ptr := λ s,
  if ok then
    let l := fresh (dom (heap s)) in
    Val (Some l) (set_heap (<[l := mkNode 0 None None]> (heap s)) s)
  else Val None s.

(** [calloc(n, 1)]: [n] zero bytes, or [NULL]. *)
Definition calloc_bytes (ok : bool) (n : Z) : option (list Byte.byte) :=
  if ok && (n <=? PTRDIFF_MAX) then Some (replicate (Z.to_nat n) Byte.x00)
  else None.

(** [free(p->buf); free(p);] *)
Definition free (p : ptr) : M unit :=
  _ ← load p;
  match p with
  | Some l => put (λ s, set_heap (delete l (heap s)) s)
  | None => fault
  end.

Definition print (text : string) : M unit := put (emit (Print text)).
Definition printf (fmt : string) (arg : Q) : M unit := put (emit (Printf fmt arg)).
Definition sleep (n : Z) : M unit := put (emit (Sleep n)).
Definition usleep (n : Z) : M unit := put (emit (Usleep n)).

(** The line feed that ends every line the program prints. *)
Definition LF : string := String (Ascii.ascii_of_nat 10) EmptyString.

(** ** The functions of list.c *)

(** The loop of [newNode] from index [i] on: [b[i] = 0xff; i++] while
    [i < sz], on the bytes [b] of the buffer; [fuel] bounds the number of
    iterations. *)
Fixpoint fill (fuel : nat) (i sz : Z) (b : list Byte.byte) : list Byte.byte :=
  match fuel with
  | O => b
  | S fuel' =>
      if i <? sz then fill fuel' (int (i + 1)) sz (<[Z.to_nat i := Byte.xff]> b)
      else b
  end.

(** [for (int i = 0; i < sz; i++) n->buf[i] = 0xff;]  The first store
    through a [NULL] buffer faults; a buffer that was allocated has [sz]
    bytes, so every index is in range. *)
Definition fill_buf (n : ptr) (sz : Z) : M unit :=
  nd ← load n;
  match buf nd with
  | None => if 0 <? sz then fault else mret tt
  | Some b =>
      store n (λ nd, mkNode (data nd) (Some (fill (Z.to_nat sz) 0 sz b)) (next nd))
  end.

Definition newNode (a : oracle) (sz : Z) : M ptr :=
  n ← calloc_node (node_ok a);
  store n (λ nd, mkNode (data nd) (calloc_bytes (buf_ok a) (size_t sz)) (next nd));;
  fill_buf n sz;;
  store n (λ nd, mkNode sz (buf nd) (next nd));;
  store n (λ nd, mkNode (data nd) (buf nd) None);;
  mret n.

Definition allocate (a : oracle) (n : ptr) (sz : Z) : M unit :=
  nn ← newNode a sz;
  tmp ← next <$> load n;
  store n (λ nd, mkNode (data nd) (buf nd) nn);;
  store nn (λ nd, mkNode (data nd) (buf nd) tmp).

Definition dealloc (n : ptr) : M Z :=
  nx ← next <$> load n;
  (if nx is None then print ("n->next is NULL" +:+ LF);; exit 1 else mret tt);;
  tmp ← next <$> load n;
  tn ← next <$> load tmp;
  store n (λ nd, mkNode (data nd) (buf nd) tn);;
  sz ← data <$> load tmp;
  free tmp;;
  mret sz.

(** [int sz = (1 + rand() % 256) << 20;] for [rand()] returning [r]. *)
Definition block_size (r : Z) : Z := int (int (1 + Z.rem r 256) ≪ 20).

(** The branch [increase == 1] of the loop body. *)
Definition grow (i : input) : M unit :=
  let sz := block_size (rnd i) in
  r ← get root;
  allocate (al i) r sz;;
  nx ← next <$> load r;
  (if nx is None then print ("root->next is NULL" +:+ LF);; exit 1 else mret tt);;
  t ← get total;
  put (set_total (llong (t + sz)));;
  t ← get total;
  if hi <? t then put (set_increase 0) else mret tt.

(** The [else] branch of the loop body. *)
Definition shrink : M unit :=
  r ← get root;
  sz ← dealloc r;
  t ← get total;
  put (set_total (llong (t - sz)));;
  t ← get total;
  if t <? lo then put (set_increase 1);; sleep 5 else usleep 10.

(** [long double gb = total; gb /= (1 << 30);]  A [long double] holds every
    [long long] below [2^53] in absolute value exactly (every [long long]
    at all when its significand has 64 bits), and a division by a power of
    two does not round, so [gb] is the rational [total / 2^30]. *)
Definition gib (t : Z) : Q := (inject_Z t / inject_Z (int (1 ≪ 30)))%Q.

(** The event of [printf("Total size: %.2LF\n", gb)]. *)
Definition report_line (t : Z) : event := Printf ("Total size: %.2LF" +:+ LF) (gib t).

(** The end of the loop body: the report of [total]. *)
Definition report : M unit :=
  t ← get total;
  printf ("Total size: %.2LF" +:+ LF) (gib t).

(** One iteration of [while(1)]. *)
Definition iter (i : input) : M unit :=
  inc ← get increase;
  (if inc =? 1 then grow i else shrink);;
  report.

(** As many iterations of the loop as there are inputs. *)
Fixpoint loop (ins : list input) : M unit :=
  match ins with
  | [] => mret tt
  | i :: ins' => iter i;; loop ins'
  end.

(** [main] up to the end of the iteration that reads the last input. *)
Definition main (a : oracle) (ins : list input) : M unit :=
  r ← newNode a 100;
  put (set_root r);;
  put (set_total 0);;
  put (set_increase 1);;
  loop ins.

(** The process before [main] runs: nothing allocated, nothing printed. *)
Definition start : state := mkState ∅ [] None 0 0.

(** ** Observing the list *)

(** The nodes met from [p] by following [next] until [NULL], as [printList]
    walks them; [fuel] bounds the walk. *)
Fixpoint chain (fuel : nat) (h : gmap loc Node) (p : ptr) : list Node :=
  match fuel, p with
  | S fuel', Some l =>
      match h !! l with
      | Some n => n :: chain fuel' h (next n)
      | None => []
      end
  | _, _ => []
  end.

(** The blocks linked after the sentinel [root]. *)
Definition blocks (s : state) : list Node :=
  match root s ≫= (heap s !!.) with
  | Some r => chain (size (heap s)) (heap s) (next r)
  | None => []
  end.

(** The sizes of the linked blocks, first block first. *)
Definition sizes (s : state) : list Z := data <$> blocks s.

Definition payload_sum (s : state) : Z := foldr Z.add 0 (sizes s).

(** ** What reaches standard output *)

(** The decimal digit of [n], for [0 ≤ n ≤ 9]. *)
Definition digit (n : Z) : Ascii.ascii := Ascii.ascii_of_nat (48 + Z.to_nat n).

Definition is_digit (c : Ascii.ascii) : Prop := ∃ n, 0 ≤ n ≤ 9 ∧ c = digit n.

Fixpoint all_digits (s : string) : Prop :=
  match s with
  | EmptyString => True
  | String c s' => is_digit c ∧ all_digits s'
  end.

(** The integer nearest to [n / d], half-way cases to the even one (the
    default rounding of the conversions of [printf]). *)
Definition round_half_even (n d : Z) : Z :=
  let q := n / d in
  let r := n mod d in
  if 2 * r <? d then q
  else if d <? 2 * r then q + 1
  else if Z.even q then q else q + 1.

(** [x] in hundredths, rounded. *)
Definition cents (x : Q) : Z := round_half_even (Qnum x * 100) (Z.pos (Qden x)).

Definition decimal (n : Z) : string :=
  DecimalString.NilZero.string_of_uint (N.to_uint (Z.to_N n)).

(** The conversion [%.2LF] of [x]: sign, integer part, point, two digits. *)
Definition fixed2 (x : Q) : string :=
  let c := Z.abs (cents x) in
  (if Qnum x <? 0 then "-" else "")
  +:+ decimal (c / 100)
  +:+ String "."%char
        (String (digit (c / 10 mod 10)) (String (digit (c mod 10)) EmptyString)).

(** [printf(fmt, x)] for a format whose conversions are all [%.2LF]. *)
Fixpoint format (fmt : string) (x : Q) : string :=
  match fmt with
  | String "%"%char
      (String "."%char (String "2"%char (String "L"%char (String "F"%char rest)))) =>
      fixed2 x +:+ format rest x
  | String c rest => String c (format rest x)
  | EmptyString => EmptyString
  end.

(** What an event writes to standard output. *)
Definition printed (e : event) : list string :=
  match e with
  | Print text => [text]
  | Printf fmt x => [format fmt x]
  | Sleep _ | Usleep _ => []
  end.

(** Everything written to standard output so far, one entry per [printf]. *)
Definition stdout (s : state) : list string := out s ≫= printed.

(** ** The environment *)

(** The allocator finds memory for both parts of a node. *)
Definition ok : oracle := mkOracle true true.

(** [rand()] returns an [int] between [0] and [RAND_MAX], whatever
    [RAND_MAX] is on the platform. *)
Definition valid_input (i : input) : Prop := 0 ≤ rnd i ≤ INT_MAX.

(** The allocator finds memory for the block of iteration [i]. *)
Definition mem_ok (i : input) : Prop := node_ok (al i) = true ∧ buf_ok (al i) = true.

(** How many of the values [0 .. rand_max] that [rand()] can return give a
    block of [k] MiB. *)
Definition count_size (rand_max k : Z) : nat :=
  length (filter (λ r, block_size r = k * MiB) (seqZ 0 (rand_max + 1))).

(** * Specification predicates *)

(** [lseg h p ns]: following [next] from [p] in [h] meets exactly the nodes
    [ns], each given with its address, and then [NULL]. *)
Fixpoint lseg (h : gmap loc Node) (p : ptr) (ns : list (loc * Node)) : Prop :=
  match ns with
  | [] => p = None
  | (l, n) :: ns' => p = Some l ∧ h !! l = Some n ∧ lseg h (next n) ns'
  end.

(** [linked s ns]: [root] points to a live sentinel, and the blocks linked
    after it are [ns], at addresses that differ from each other and from the
    sentinel's. *)
Definition linked (s : state) (ns : list (loc * Node)) : Prop :=
  ∃ l r, root s = Some l ∧ heap s !! l = Some r ∧
         lseg (heap s) (next r) ns ∧ (l ∉ ns.*1) ∧ NoDup (ns.*1).

(** Every block the loop links has one of its 256 sizes. *)
Definition block_ok (n : Node) : Prop := MiB ≤ data n ≤ 256 * MiB.

(** The invariant of [while(1)]: the list is well formed, [total] is the sum
    of the sizes of its blocks, and [total] is within the band its mode
    allows. *)
Definition inv (s : state) : Prop :=
  ∃ ns, linked s ns ∧ Forall block_ok ns.*2 ∧
        total s = foldr Z.add 0 (data <$> ns.*2) ∧
        ((increase s = 1 ∧ 0 ≤ total s ≤ hi) ∨
         (increase s = 0 ∧ lo ≤ total s ≤ hi + 256 * MiB)).

(** The state [dealloc] leaves when it unlinks [l1], whose successor is
    [tn], from after [l]. *)
Definition unlinked (l : loc) (r : Node) (l1 : loc) (tn : ptr) (s : state) : state :=
  set_heap (delete l1 (<[l := mkNode (data r) (buf r) tn]> (heap s))) s.

(** ** States and inputs of the examples *)

(** Three growth steps, of 10 MiB, 20 MiB and 5 MiB. *)
Definition three_steps : list input := [mkInput 9 ok; mkInput 19 ok; mkInput 4 ok].

(** The input of a growth step of 256 MiB. *)
Definition big : input := mkInput 255 ok.

(** A sentinel alone, in shrinking mode: the state of the witnesses of the
    claims on a failed removal. *)
Definition sentinel_only : state :=
  mkState {[1%positive := mkNode 100 (Some (replicate 100 Byte.xff)) None]}
    [] (Some 1%positive) 0 0.

(** A small list, sentinel then one block of 5 bytes, in shrinking mode. *)
Definition one_small_block : state :=
  mkState {[1%positive := mkNode 100 None (Some 2%positive);
            2%positive := mkNode 5 None None]}
    [] (Some 1%positive) 5 0.

(** * The rest of list.c and further predicates *)

(** ** [printList] *)

(** The conversion [%d] of an [int]. *)
Definition fmt_d (d : Z) : string :=
  (if d <? 0 then "-" else "") +:+ decimal (Z.abs d).

(** The event of [printf(" %d ", d)]. *)
Definition entry (d : Z) : event := Print (" " +:+ fmt_d d +:+ " ").

(** The body of the loop of [printList]:
    [printf(" %d ", n->data); n = n->next;], returning the new [n]. *)
Definition print_node (n : ptr) : M ptr :=
  d ← data <$> load n;
  put (emit (entry d));;
  next <$> load n.

(** [while (n != NULL) { ... }] for at most [fuel] runs of the body; [None]
    when the loop has not ended by then. *)
Fixpoint printList (fuel : nat) (n : ptr) (s : state) : option (res unit) :=
  match n with
  | None => Some (Val tt s)
  | Some _ =>
      match fuel with
      | O => None
      | S fuel' =>
          match print_node n s with
          | Val n' s' => printList fuel' n' s'
          | Exit c s' => Some (Exit c s')
          | Fault => Some Fault
          end
      end
  end.

(** [cyclic h C]: the addresses [C] are live in [h] and [next] never leaves
    them: a walk that enters [C] never meets [NULL]. *)
Definition cyclic (h : gmap loc Node) (C : gset loc) : Prop :=
  ∀ l, l ∈ C → ∃ n l', h !! l = Some n ∧ next n = Some l' ∧ l' ∈ C.

(** ** The shape of the heap *)

(** The buffer of [n] has [data n] bytes, all [0xff]. *)
Definition full (n : Node) : Prop :=
  buf n = Some (replicate (Z.to_nat (data n)) Byte.xff).

(** [tidy s]: the sentinel is the first node ever allocated, with its 100
    bytes; the blocks linked after it have their buffers filled; and the
    heap holds nothing else. *)
Definition tidy (s : state) : Prop :=
  ∃ r ns,
    root s = Some 1%positive ∧ heap s !! 1%positive = Some r ∧
    data r = 100 ∧ full r ∧
    lseg (heap s) (next r) ns ∧ (1%positive ∉ ns.*1) ∧ NoDup (ns.*1) ∧
    Forall full ns.*2 ∧
    dom (heap s) = {[1%positive]} ∪ list_to_set ns.*1.

(** A line of the report. *)
Definition is_report (line : string) : Prop :=
  ∃ t, line = "Total size: " +:+ fixed2 (gib t) +:+ LF.

(** A node whose successor is itself. *)
Definition self_loop : state :=
  mkState {[1%positive := mkNode 7 None (Some 1%positive)]} [] (Some 1%positive) 0 0.

(** * Proofs *)

(** ** Machine integers *)

Lemma wrap_small w z : 0 < w → - 2 ^ (w - 1) ≤ z < 2 ^ (w - 1) → wrap w z = z.
Proof.
  intros Hw Hz. unfold wrap.
  assert (2 ^ w = 2 * 2 ^ (w - 1)) as Hp.
  { rewrite <- Z.pow_succ_r by lia. f_equal. lia. }
  rewrite Z.mod_small by lia. lia.
Qed.

Lemma int_small z : - 2 ^ 31 ≤ z ≤ INT_MAX → int z = z.
Proof. intros Hz. apply wrap_small; unfold INT_MAX in *; lia. Qed.

Lemma llong_small z : - 2 ^ 63 ≤ z < 2 ^ 63 → llong z = z.
Proof. intros Hz. apply wrap_small; lia. Qed.

Lemma lo_eq : lo = 2 ^ 30.
Proof. reflexivity. Qed.

Lemma hi_eq : hi = 2 ^ 34.
Proof. reflexivity. Qed.

(** ** Block sizes *)

Lemma block_size_eq r : 0 ≤ r ≤ INT_MAX → block_size r = (1 + r mod 256) * MiB.
Proof.
  intros Hr. unfold block_size, MiB.
  rewrite Z.rem_mod_nonneg by lia.
  pose proof (Z.mod_pos_bound r 256 ltac:(lia)) as Hm.
  rewrite (int_small (1 + _)) by (unfold INT_MAX; lia).
  rewrite Z.shiftl_mul_pow2 by lia.
  apply int_small. unfold INT_MAX. lia.
Qed.

Lemma block_size_range r : 0 ≤ r ≤ INT_MAX → MiB ≤ block_size r ≤ 256 * MiB.
Proof.
  intros Hr. rewrite block_size_eq by done.
  pose proof (Z.mod_pos_bound r 256 ltac:(lia)) as Hm. unfold MiB. lia.
Qed.

(** ** The fill loop *)

Lemma fill_take fuel : ∀ i sz b,
  0 ≤ i → i + Z.of_nat fuel = sz → sz ≤ INT_MAX → length b = Z.to_nat sz →
  fill fuel i sz b = take (Z.to_nat i) b ++ replicate fuel Byte.xff.
Proof.
  induction fuel as [|fuel IH]; intros i sz b Hi Hsz Hmax Hlen; simpl.
  - rewrite take_ge by lia. by rewrite app_nil_r.
  - destruct (Z.ltb_spec i sz) as [_|]; [|lia].
    rewrite int_small by (unfold INT_MAX in *; lia).
    rewrite (IH (i + 1) sz) by (rewrite ?length_insert; lia).
    replace (Z.to_nat (i + 1)) with (S (Z.to_nat i)) by lia.
    erewrite take_S_r by (apply list_lookup_insert_eq; lia).
    rewrite take_insert_ge by lia.
    by rewrite <- app_assoc.
Qed.

Lemma fill_calloc sz :
  0 ≤ sz ≤ INT_MAX →
  fill (Z.to_nat sz) 0 sz (replicate (Z.to_nat sz) Byte.x00)
  = replicate (Z.to_nat sz) Byte.xff.
Proof.
  intros Hsz. rewrite (fill_take _ 0 sz); rewrite ?length_replicate; try lia.
  done.
Qed.

(** ** Running the monad *)

Lemma bind_val {A B} (m : M A) (f : A → M B) s a s' :
  m s = Val a s' → (m ≫= f) s = f a s'.
Proof. intros H. unfold mbind, M_bind. by rewrite H. Qed.

Lemma bind_inv {A B} (m : M A) (f : A → M B) s b s' :
  (m ≫= f) s = Val b s' → ∃ a s1, m s = Val a s1 ∧ f a s1 = Val b s'.
Proof. unfold mbind, M_bind. destruct (m s) as [a s1| |]; naive_solver. Qed.

Lemma bind_fault {A B} (m : M A) (f : A → M B) s : m s = Fault → (m ≫= f) s = Fault.
Proof. intros H. unfold mbind, M_bind. by rewrite H. Qed.

Lemma fmap_val {A B} (m : M A) (f : A → B) s a s' :
  m s = Val a s' → (f <$> m) s = Val (f a) s'.
Proof. intros H. unfold fmap, M_fmap. by rewrite H. Qed.

Lemma load_live s l n : heap s !! l = Some n → load (Some l) s = Val n s.
Proof. intros H. unfold load. by rewrite H. Qed.

(** The next step of the computation returns by evaluation. *)
Ltac ret := erewrite bind_val by reflexivity.
Ltac ret_in H := erewrite bind_val in H by reflexivity.

(** The next step reads a field of the live node of hypothesis [H]. *)
Ltac read H := erewrite bind_val by (apply fmap_val, load_live, H).

Lemma store_live s l n f :
  heap s !! l = Some n →
  store (Some l) f s = Val tt (set_heap (<[l := f n]> (heap s)) s).
Proof. intros H. unfold store. by rewrite (bind_val _ _ _ _ _ (load_live _ _ _ H)). Qed.

Lemma store_insert s h l n f :
  store (Some l) f (set_heap (<[l := n]> h) s) = Val tt (set_heap (<[l := f n]> h) s).
Proof.
  erewrite store_live by apply lookup_insert_eq.
  unfold set_heap; simpl. by rewrite insert_insert_eq.
Qed.

Lemma load_frame p s n s' : load p s = Val n s' → s' = s.
Proof.
  unfold load. destruct p as [l|]; [|done].
  destruct (heap s !! l); [|done]. by intros [= _ <-].
Qed.

Lemma store_frame p f s s' : store p f s = Val tt s' → ∃ h, s' = set_heap h s.
Proof.
  unfold store. intros (n & s1 & ->%load_frame & Hput)%bind_inv.
  destruct p as [l|]; [|done]. injection Hput as <-. by eexists.
Qed.

(** ** [newNode] *)

Lemma calloc_bytes_ok sz :
  0 ≤ sz ≤ INT_MAX →
  calloc_bytes true (size_t sz) = Some (replicate (Z.to_nat sz) Byte.x00).
Proof.
  intros Hsz. unfold calloc_bytes, size_t, INT_MAX, PTRDIFF_MAX in *.
  rewrite Z.mod_small by lia.
  destruct (Z.leb_spec sz (2 ^ 63 - 1)); [done | lia].
Qed.

Lemma calloc_bytes_inv okb sz b :
  - 2 ^ 31 ≤ sz ≤ INT_MAX → calloc_bytes okb (size_t sz) = Some b →
  0 ≤ sz ∧ b = replicate (Z.to_nat sz) Byte.x00.
Proof.
  intros Hsz. unfold calloc_bytes, size_t, PTRDIFF_MAX, INT_MAX in *.
  destruct okb; [|done]. simpl.
  destruct (Z.leb_spec (sz mod 2 ^ 64) (2 ^ 63 - 1)) as [Hle|]; [|done].
  intros [= <-].
  assert (0 ≤ sz ∨ sz < 0) as [Hpos|Hneg] by lia.
  - by rewrite Z.mod_small by lia.
  - exfalso. replace sz with (sz + 2 ^ 64 + (-1) * 2 ^ 64) in Hle by lia.
    rewrite Z.mod_add in Hle by lia. rewrite Z.mod_small in Hle by lia. lia.
Qed.

(** With memory for the node and for its buffer, [newNode] returns a new
    node at an unused address. *)
Lemma newNode_ok a sz s :
  node_ok a = true → buf_ok a = true → 0 ≤ sz ≤ INT_MAX →
  let l := fresh (dom (heap s)) in
  newNode a sz s
  = Val (Some l)
      (set_heap (<[l := mkNode sz (Some (replicate (Z.to_nat sz) Byte.xff)) None]> (heap s)) s).
Proof.
  intros Hn Hb Hsz l. unfold newNode. rewrite Hn, Hb.
  ret. fold l.
  erewrite bind_val by apply store_insert.
  unfold fill_buf.
  erewrite bind_val; cycle 1.
  { erewrite bind_val by (apply load_live, lookup_insert_eq).
    simpl. rewrite calloc_bytes_ok by done. apply store_insert. }
  erewrite bind_val by apply store_insert.
  erewrite bind_val by apply store_insert.
  simpl. by rewrite fill_calloc.
Qed.

(** What [newNode] does, for any answer of the allocator. *)
Lemma newNode_cases a sz s :
  let l := fresh (dom (heap s)) in
  newNode a sz s =
  if node_ok a then
    match calloc_bytes (buf_ok a) (size_t sz) with
    | Some b =>
        Val (Some l)
          (set_heap (<[l := mkNode sz (Some (fill (Z.to_nat sz) 0 sz b)) None]> (heap s)) s)
    | None =>
        if 0 <? sz then Fault
        else Val (Some l) (set_heap (<[l := mkNode sz None None]> (heap s)) s)
    end
  else Fault.
Proof.
  intros l. unfold newNode. destruct (node_ok a).
  - ret. fold l.
    erewrite bind_val by apply store_insert. simpl.
    unfold fill_buf.
    destruct (calloc_bytes (buf_ok a) (size_t sz)) as [b|] eqn:Hb.
    + erewrite bind_val; cycle 1.
      { erewrite bind_val by (apply load_live, lookup_insert_eq).
        simpl. apply store_insert. }
      erewrite bind_val by apply store_insert.
      erewrite bind_val by apply store_insert. done.
    + destruct (0 <? sz) eqn:Hsz.
      * unfold mbind at 1, M_bind.
        erewrite bind_val by (apply load_live, lookup_insert_eq).
        done.
      * erewrite bind_val; cycle 1.
        { erewrite bind_val by (apply load_live, lookup_insert_eq).
          simpl. reflexivity. }
        erewrite bind_val by apply store_insert.
        erewrite bind_val by apply store_insert. done.
  - ret. done.
Qed.

Lemma fresh_heap (h : gmap loc Node) : h !! fresh (dom h) = None.
Proof. apply not_elem_of_dom, is_fresh. Qed.

(** A normal return of [newNode] added one node, at an unused address, with
    the size in [data] and a [NULL] successor. *)
Lemma newNode_inv a sz s p s' :
  newNode a sz s = Val p s' →
  ∃ b, p = Some (fresh (dom (heap s))) ∧
       s' = set_heap (<[fresh (dom (heap s)) := mkNode sz b None]> (heap s)) s.
Proof.
  rewrite newNode_cases. destruct (node_ok a); [|done].
  destruct (calloc_bytes _ _); [naive_solver|].
  destruct (0 <? sz); naive_solver.
Qed.

Lemma newNode_total a sz s :
  newNode a sz s = Fault ∨
  ∃ b, newNode a sz s
       = Val (Some (fresh (dom (heap s))))
           (set_heap (<[fresh (dom (heap s)) := mkNode sz b None]> (heap s)) s).
Proof.
  rewrite newNode_cases. destruct (node_ok a); [|by left].
  destruct (calloc_bytes _ _); [right; by eexists|].
  destruct (0 <? sz); [by left | right; by eexists].
Qed.

(** ** [allocate] *)

(** [allocate] on a live node [ln]: the new node becomes the successor of
    [ln] and takes over the former successor of [ln]. *)
Lemma allocate_step a ln nd0 sz s b :
  heap s !! ln = Some nd0 →
  let l := fresh (dom (heap s)) in
  newNode a sz s = Val (Some l) (set_heap (<[l := mkNode sz b None]> (heap s)) s) →
  allocate a (Some ln) sz s
  = Val tt (set_heap (<[l := mkNode sz b (next nd0)]>
                        (<[ln := mkNode (data nd0) (buf nd0) (Some l)]> (heap s))) s).
Proof.
  intros Hln l Hnew. unfold allocate.
  assert (l ≠ ln) as Hne.
  { intros Heq. pose proof (fresh_heap (heap s)) as Hf. fold l in Hf.
    rewrite Heq in Hf. congruence. }
  erewrite bind_val by exact Hnew.
  erewrite bind_val; cycle 1.
  { apply fmap_val, load_live. simpl. rewrite lookup_insert_ne by done. exact Hln. }
  erewrite bind_val; cycle 1.
  { apply store_live. simpl. rewrite lookup_insert_ne by done. exact Hln. }
  erewrite store_live; cycle 1.
  { simpl. rewrite lookup_insert_ne by done. apply lookup_insert_eq. }
  simpl. f_equal. unfold set_heap; simpl. f_equal.
  rewrite (insert_insert_ne _ ln l) by done.
  by rewrite insert_insert_eq.
Qed.

Lemma allocate_total a ln nd0 sz s :
  heap s !! ln = Some nd0 →
  allocate a (Some ln) sz s = Fault ∨
  ∃ b, allocate a (Some ln) sz s
       = Val tt (set_heap (<[fresh (dom (heap s)) := mkNode sz b (next nd0)]>
                             (<[ln := mkNode (data nd0) (buf nd0)
                                        (Some (fresh (dom (heap s))))]> (heap s))) s).
Proof.
  intros Hln. destruct (newNode_total a sz s) as [Hf|[b Hnew]].
  - left. unfold allocate. by apply bind_fault.
  - right. exists b. by apply allocate_step.
Qed.

(** [allocate] changes nothing but the heap. *)
Lemma allocate_frame a n sz s s' :
  allocate a n sz s = Val tt s' → ∃ h, s' = set_heap h s.
Proof.
  unfold allocate. intros (nn & s1 & Hnew & Hrest)%bind_inv.
  apply newNode_inv in Hnew as (b & -> & ->).
  apply bind_inv in Hrest as (tmp & s2 & Hload & Hrest).
  unfold fmap, M_fmap in Hload.
  destruct (load n _) as [nd s2'| |] eqn:Hld; [|done|done].
  apply load_frame in Hld as ->. injection Hload as <- <-.
  apply bind_inv in Hrest as ([] & s3 & [h3 ->]%store_frame & [h4 ->]%store_frame).
  by eexists.
Qed.

(** ** [dealloc] *)

(** [dealloc] on a sentinel without successor prints its message and exits
    with code 1; nothing else of the state changes. *)
Lemma dealloc_empty s l r :
  heap s !! l = Some r → next r = None →
  dealloc (Some l) s = Exit 1 (emit (Print ("n->next is NULL" +:+ LF)) s).
Proof.
  intros Hl Hr. unfold dealloc.
  read Hl.
  rewrite Hr. reflexivity.
Qed.

(** [dealloc] unlinks and frees the first block after the sentinel and
    returns its size. *)
Lemma dealloc_step s l r l1 n1 :
  heap s !! l = Some r → next r = Some l1 → heap s !! l1 = Some n1 → l ≠ l1 →
  dealloc (Some l) s
  = Val (data n1)
      (set_heap (delete l1 (<[l := mkNode (data r) (buf r) (next n1)]> (heap s))) s).
Proof.
  intros Hl Hr Hl1 Hne. unfold dealloc.
  read Hl.
  rewrite Hr.
  ret.
  read Hl.
  rewrite Hr.
  read Hl1.
  erewrite bind_val by (apply store_live, Hl).
  erewrite bind_val; cycle 1.
  { apply fmap_val, load_live. simpl. rewrite lookup_insert_ne by done. exact Hl1. }
  erewrite bind_val; cycle 1.
  { unfold free. erewrite bind_val; cycle 1.
    { apply load_live. simpl. rewrite lookup_insert_ne by done. exact Hl1. }
    reflexivity. }
  reflexivity.
Qed.

(** All of [dealloc]: it faults on a dangling pointer, exits on a missing
    successor, and otherwise frees the successor and returns its size. *)
Lemma dealloc_cases n s :
  dealloc n s =
  match n with
  | None => Fault
  | Some l =>
      match heap s !! l with
      | None => Fault
      | Some r =>
          match next r with
          | None => Exit 1 (emit (Print ("n->next is NULL" +:+ LF)) s)
          | Some l1 =>
              match heap s !! l1 with
              | None => Fault
              | Some n1 => Val (data n1) (unlinked l r l1 (next n1) s)
              end
          end
      end
  end.
Proof.
  destruct n as [l|]; [|done].
  destruct (heap s !! l) as [r|] eqn:Hl;
    [|by unfold dealloc, mbind, M_bind, fmap, M_fmap, load; rewrite Hl].
  destruct (next r) as [l1|] eqn:Hr; [|by apply (dealloc_empty s l r)].
  unfold dealloc.
  read Hl.
  rewrite Hr.
  ret.
  read Hl.
  rewrite Hr.
  destruct (heap s !! l1) as [n1|] eqn:Hl1;
    [|by unfold mbind, M_bind, fmap, M_fmap, load; rewrite Hl1].
  read Hl1.
  erewrite bind_val by (apply store_live, Hl).
  assert (∃ n1', heap (set_heap (<[l:=mkNode (data r) (buf r) (next n1)]> (heap s)) s) !! l1
                 = Some n1' ∧ data n1' = data n1) as (n1' & Hl1' & Hdata).
  { simpl. destruct (decide (l = l1)) as [->|Hne].
    - rewrite lookup_insert_eq. eexists. split; [done|]. simpl. congruence.
    - rewrite lookup_insert_ne by done. by eexists. }
  read Hl1'.
  erewrite bind_val; cycle 1.
  { unfold free. erewrite bind_val by (apply load_live, Hl1'). reflexivity. }
  rewrite Hdata. reflexivity.
Qed.

(** ** List segments *)

Lemma lseg_frame h h' p ns :
  lseg h p ns → (∀ l, l ∈ ns.*1 → h' !! l = h !! l) → lseg h' p ns.
Proof.
  revert p. induction ns as [|[l n] ns IH]; intros p; simpl; [done|].
  intros (-> & Hl & Hns) Hsame. split_and!; [done| |].
  - rewrite Hsame; [done | apply elem_of_cons; by left].
  - apply IH; [done|]. intros l' Hl'. apply Hsame, elem_of_cons. by right.
Qed.

Lemma lseg_dom h p ns : lseg h p ns → ∀ l, l ∈ ns.*1 → l ∈ dom h.
Proof.
  revert p. induction ns as [|[l n] ns IH]; intros p; simpl.
  { intros _ l Hl. by apply elem_of_nil in Hl. }
  intros (-> & Hl & Hns) l' [->|Hl']%elem_of_cons.
  - by apply elem_of_dom.
  - by eapply IH.
Qed.

Lemma lseg_length h p ns : lseg h p ns → NoDup ns.*1 → (length ns ≤ size h)%nat.
Proof.
  intros Hseg Hnd.
  rewrite <- size_dom, <- (length_fmap fst ns), <- (size_list_to_set (C := gset loc)) by done.
  apply subseteq_size. intros l Hl%elem_of_list_to_set. by eapply lseg_dom.
Qed.

Lemma chain_lseg fuel : ∀ h p ns,
  lseg h p ns → (length ns ≤ fuel)%nat → chain fuel h p = ns.*2.
Proof.
  induction fuel as [|fuel IH]; intros h p [|[l n] ns]; simpl; try done; try lia.
  - by intros ->.
  - intros (-> & Hl & Hns) Hlen. rewrite Hl. f_equal. apply IH; [done | lia].
Qed.

(** The walk from the sentinel finds the linked blocks, in order. *)
Lemma linked_blocks s ns : linked s ns → blocks s = ns.*2.
Proof.
  intros (l & r & Hroot & Hl & Hseg & _ & Hnd). unfold blocks.
  rewrite Hroot. simpl. rewrite Hl.
  apply chain_lseg; [done|]. by eapply lseg_length.
Qed.

Lemma linked_emit e s ns : linked s ns → linked (emit e s) ns.
Proof. done. Qed.

Lemma linked_dealloc s l1 n1 ns :
  linked s ((l1, n1) :: ns) →
  ∃ s', dealloc (root s) s = Val (data n1) s' ∧ linked s' ns ∧
        out s' = out s ∧ root s' = root s ∧ total s' = total s ∧
        increase s' = increase s.
Proof.
  intros (l & r & Hroot & Hl & (Hr & Hl1 & Hseg) & Hnotin & Hnd).
  simpl in Hnotin, Hnd. apply NoDup_cons in Hnd as [Hl1n Hnd].
  apply not_elem_of_cons in Hnotin as [Hne Hnotin].
  eexists. rewrite Hroot. split; [by apply dealloc_step|].
  split; [|done].
  exists l, (mkNode (data r) (buf r) (next n1)). simpl. split_and!; try done.
  - rewrite lookup_delete_ne by done. apply lookup_insert_eq.
  - eapply lseg_frame; [exact Hseg|]. intros l' Hl'.
    rewrite lookup_delete_ne by (intros ->; done).
    rewrite lookup_insert_ne by (intros ->; done). done.
Qed.

Lemma linked_allocate a sz s ns :
  linked s ns → node_ok a = true → buf_ok a = true → 0 ≤ sz ≤ INT_MAX →
  ∃ s' l',
    allocate a (root s) sz s = Val tt s' ∧
    linked s' ((l', mkNode sz (Some (replicate (Z.to_nat sz) Byte.xff)) (head ns.*1)) :: ns) ∧
    out s' = out s ∧ root s' = root s ∧ total s' = total s ∧
    increase s' = increase s.
Proof.
  intros (l & r & Hroot & Hl & Hseg & Hnotin & Hnd) Hn Hb Hsz.
  pose proof (newNode_ok a sz s Hn Hb Hsz) as Hnew. simpl in Hnew.
  pose proof (allocate_step a l r sz s _ Hl Hnew) as Hal. simpl in Hal.
  pose proof (fresh_heap (heap s)) as Hfresh.
  set (l' := fresh (dom (heap s))) in *.
  assert (l' ≠ l) as Hne by (intros ->; congruence).
  assert (l' ∉ ns.*1) as Hnew_notin.
  { intros Hin. eapply lseg_dom in Hin; [|exact Hseg].
    apply elem_of_dom in Hin as [? ?]. congruence. }
  assert (next r = head ns.*1) as Hhead.
  { destruct ns as [|[l1 n1] ns]; simpl in *; [done | by destruct Hseg]. }
  eexists _, l'. rewrite Hroot. split; [exact Hal|]. split; [|done].
  exists l, (mkNode (data r) (buf r) (Some l')). simpl. split_and!; try done.
  - rewrite lookup_insert_ne by done. apply lookup_insert_eq.
  - rewrite <- Hhead. apply lookup_insert_eq.
  - rewrite <- Hhead. eapply lseg_frame; [exact Hseg|]. intros l0 Hl0.
    rewrite !lookup_insert_ne by (intros ->; done). done.
  - apply not_elem_of_cons. split; [done|done].
  - apply NoDup_cons. done.
Qed.

(** ** The two branches of the loop body *)

Lemma grow_linked i s ns :
  linked s ns → node_ok (al i) = true → buf_ok (al i) = true → valid_input i →
  let sz := block_size (rnd i) in
  ∃ s' l',
    grow i s = Val tt s' ∧
    linked s' ((l', mkNode sz (Some (replicate (Z.to_nat sz) Byte.xff)) (head ns.*1)) :: ns) ∧
    out s' = out s ∧ total s' = llong (total s + sz) ∧
    increase s' = (if hi <? llong (total s + sz) then 0 else increase s).
Proof.
  intros Hlinked Hn Hb Hi sz.
  pose proof (block_size_range _ Hi) as Hsz. fold sz in Hsz.
  destruct (linked_allocate (al i) sz s ns Hlinked Hn Hb) as
    (s1 & l' & Hal & Hlinked1 & Hout & Hroot & Htotal & Hinc).
  { unfold MiB, INT_MAX in *. lia. }
  destruct Hlinked1 as (l & r & Hroot1 & Hl & Hseg & Hnotin & Hnd).
  pose proof Hseg as (Hr & _).
  unfold grow. fold sz.
  ret.
  erewrite bind_val by exact Hal.
  rewrite <- Hroot, Hroot1.
  read Hl.
  rewrite Hr.
  do 4 ret. simpl.
  rewrite Htotal.
  destruct (hi <? llong (total s + sz)) eqn:Hhi.
  - eexists _, l'. split; [reflexivity|]. simpl. split_and!; try done.
    by exists l, r.
  - eexists _, l'. split; [reflexivity|]. simpl. split_and!; try done.
    by exists l, r.
Qed.

Lemma shrink_linked s l1 n1 ns :
  linked s ((l1, n1) :: ns) →
  let t := llong (total s - data n1) in
  ∃ s',
    shrink s = Val tt s' ∧ linked s' ns ∧ total s' = t ∧
    increase s' = (if t <? lo then 1 else increase s) ∧
    out s' = out s ++ [if t <? lo then Sleep 5 else Usleep 10].
Proof.
  intros Hlinked t.
  destruct (linked_dealloc s l1 n1 ns Hlinked) as
    (s1 & Hde & Hlinked1 & Hout & Hroot & Htotal & Hinc).
  unfold shrink.
  ret.
  erewrite bind_val by exact Hde.
  do 3 ret. simpl.
  rewrite Htotal. fold t.
  destruct Hlinked1 as (l & r & Hroot1 & Hl & Hseg & Hnotin & Hnd).
  destruct (t <? lo) eqn:Hlo.
  - eexists. split; [reflexivity|]. simpl. rewrite Hout. split_and!; try done.
    by exists l, r.
  - eexists. split; [reflexivity|]. simpl. rewrite Hout. split_and!; try done.
    by exists l, r.
Qed.

(** With a live sentinel, a growth step faults (no memory) or returns: its
    check of [root->next] never fails. *)
Lemma grow_total i s l r :
  root s = Some l → heap s !! l = Some r →
  grow i s = Fault ∨ ∃ s', grow i s = Val tt s'.
Proof.
  intros Hroot Hl. unfold grow.
  ret. rewrite Hroot.
  destruct (allocate_total (al i) l r (block_size (rnd i)) s Hl) as [Hf|[b Hal]].
  - left. by apply bind_fault.
  - right. erewrite bind_val by exact Hal.
    pose proof (fresh_heap (heap s)) as Hfresh.
    assert (fresh (dom (heap s)) ≠ l) as Hne by (intros Heq; congruence).
    erewrite bind_val; cycle 1.
    { apply fmap_val, load_live. simpl.
      rewrite lookup_insert_ne by done. apply lookup_insert_eq. }
    simpl.
    do 4 ret. simpl.
    destruct (hi <? _); by eexists.
Qed.

(** A growth step that returns added the block size to [total] and compared
    the new total with [hi]. *)
Lemma grow_inv_val i s s' :
  grow i s = Val tt s' →
  ∃ h, let t := llong (total s + block_size (rnd i)) in
       s' = (if hi <? t then set_increase 0 (set_total t (set_heap h s))
             else set_total t (set_heap h s)).
Proof.
  unfold grow. ret.
  intros ([] & s1 & [h ->]%allocate_frame & Hrest)%bind_inv.
  apply bind_inv in Hrest as (nx & s2 & Hload & Hrest).
  unfold fmap, M_fmap in Hload.
  destruct (load (root s) _) as [nd s2'| |] eqn:Hld; [|done|done].
  apply load_frame in Hld as ->. injection Hload as <- <-.
  destruct (next nd); [|done].
  do 4 ret_in Hrest.
  simpl in Hrest. exists h. simpl.
  destruct (hi <? llong (total s + block_size (rnd i))); by injection Hrest as <-.
Qed.

(** A shrink step that returns removed the successor of the sentinel and
    subtracted its size. *)
Lemma shrink_inv_val s s' :
  shrink s = Val tt s' →
  ∃ l r l1 n1,
    root s = Some l ∧ heap s !! l = Some r ∧ next r = Some l1 ∧
    heap s !! l1 = Some n1 ∧
    let t := llong (total s - data n1) in
    s' = (if t <? lo then emit (Sleep 5) (set_increase 1 (set_total t (unlinked l r l1 (next n1) s)))
          else emit (Usleep 10) (set_total t (unlinked l r l1 (next n1) s))).
Proof.
  unfold shrink. ret.
  intros (sz & s1 & Hde & Hrest)%bind_inv.
  rewrite dealloc_cases in Hde.
  destruct (root s) as [l|]; [|done].
  destruct (heap s !! l) as [r|] eqn:Hl; [|done].
  destruct (next r) as [l1|] eqn:Hr; [|done].
  destruct (heap s !! l1) as [n1|] eqn:Hl1; [|done].
  injection Hde as <- <-.
  exists l, r, l1, n1. split_and!; try done.
  do 3 ret_in Hrest.
  simpl in Hrest. simpl.
  destruct (llong (total s - data n1) <? lo); by injection Hrest as <-.
Qed.

(** A growth step that returns had memory for its block. *)
Lemma grow_val_ok i s s' :
  valid_input i → grow i s = Val tt s' →
  node_ok (al i) = true ∧ buf_ok (al i) = true.
Proof.
  intros Hi Hgrow. pose proof (block_size_range _ Hi) as Hsz.
  assert (newNode (al i) (block_size (rnd i)) s = Fault → False) as Hnew.
  { intros Hf. unfold grow in Hgrow.
    ret_in Hgrow.
    erewrite bind_fault in Hgrow; [done|].
    unfold allocate. by apply bind_fault. }
  rewrite newNode_cases in Hnew.
  destruct (node_ok (al i)); [|by destruct Hnew].
  split; [done|].
  destruct (buf_ok (al i)); [done|]. simpl in Hnew.
  destruct (Z.ltb_spec 0 (block_size (rnd i))); [by destruct Hnew|].
  unfold MiB in Hsz. lia.
Qed.

Lemma report_eq s : report s = Val tt (emit (report_line (total s)) s).
Proof. reflexivity. Qed.

Lemma iter_eq i s :
  iter i s = ((if increase s =? 1 then grow i else shrink);; report) s.
Proof. reflexivity. Qed.

Lemma iter_grow_linked i s ns :
  linked s ns → increase s = 1 → mem_ok i → valid_input i →
  let t := llong (total s + block_size (rnd i)) in
  ∃ s' l' n,
    iter i s = Val tt s' ∧ linked s' ((l', n) :: ns) ∧
    data n = block_size (rnd i) ∧ total s' = t ∧
    increase s' = (if hi <? t then 0 else 1).
Proof.
  intros Hlinked Hinc [Hn Hb] Hi t.
  destruct (grow_linked i s ns Hlinked Hn Hb Hi) as
    (s1 & l' & Hgrow & Hlinked1 & _ & Htotal & Hinc1).
  eexists _, l', _. rewrite iter_eq, Hinc. simpl.
  erewrite bind_val by exact Hgrow. rewrite report_eq.
  split; [reflexivity|]. split; [by apply linked_emit|].
  simpl. by rewrite Hinc1, Hinc.
Qed.

(** What one iteration adds to the event list, after the events of [s]. *)
Lemma iter_out i s s' :
  iter i s = Val tt s' →
  ∃ pause, out s' = out s ++ pause ++ [report_line (total s')] ∧
           (pause = [] ∨ pause = [Sleep 5] ∨ pause = [Usleep 10]).
Proof.
  rewrite iter_eq. intros ([] & s1 & Hstep & Hrep)%bind_inv.
  rewrite report_eq in Hrep. injection Hrep as <-. simpl.
  destruct (increase s =? 1).
  - apply grow_inv_val in Hstep as (h & ->). simpl.
    exists []. split; [|by left]. by destruct (hi <? _).
  - apply shrink_inv_val in Hstep as (l & r & l1 & n1 & _ & _ & _ & _ & ->). simpl.
    destruct (_ <? lo); simpl.
    + exists [Sleep 5]. split; [by rewrite <- app_assoc | by right; left].
    + exists [Usleep 10]. split; [by rewrite <- app_assoc | by right; right].
Qed.

(** ** The loop invariant *)

Lemma sum_block_ok (nodes : list Node) :
  Forall block_ok nodes → 0 ≤ foldr Z.add 0 (data <$> nodes).
Proof.
  induction 1 as [|n nodes Hn _ IH]; [done|].
  rewrite fmap_cons. cbn [foldr]. unfold block_ok, MiB in Hn. lia.
Qed.

Lemma inv_emit e s : inv s → inv (emit e s).
Proof. done. Qed.

Lemma inv_payload_sum s : inv s → total s = payload_sum s ∧ 0 ≤ total s.
Proof.
  intros (ns & Hlinked & Hok & Htotal & _). unfold payload_sum, sizes.
  rewrite (linked_blocks _ _ Hlinked), Htotal.
  split; [done | by apply sum_block_ok].
Qed.

Lemma inv_increase s : inv s → increase s = 1 ∨ increase s = 0.
Proof. intros (ns & _ & _ & _ & [[? _]|[? _]]); auto. Qed.

Lemma grow_inv i s s' :
  inv s → increase s = 1 → valid_input i → grow i s = Val tt s' → inv s'.
Proof.
  intros (ns & Hlinked & Hok & Htotal & Hmode) Hinc Hi Hgrow.
  destruct (grow_val_ok _ _ _ Hi Hgrow) as [Hn Hb].
  destruct (grow_linked i s ns Hlinked Hn Hb Hi) as
    (s1 & l' & Hgrow1 & Hlinked1 & _ & Htotal1 & Hinc1).
  assert (s1 = s') as -> by congruence.
  pose proof (block_size_range _ Hi) as Hsz.
  destruct Hmode as [[_ Hband]|[? _]]; [|congruence].
  rewrite hi_eq in *. unfold MiB in *.
  rewrite llong_small in Htotal1, Hinc1 by lia.
  eexists. split; [exact Hlinked1|].
  rewrite !fmap_cons. cbn [foldr snd data]. split_and!.
  - constructor; [|done]. unfold block_ok, MiB. simpl. lia.
  - lia.
  - rewrite lo_eq, hi_eq. unfold MiB. revert Hinc1.
    destruct (Z.ltb_spec (2 ^ 34) (total s + block_size (rnd i))); lia.
Qed.

Lemma shrink_inv s s' :
  inv s → increase s = 0 → shrink s = Val tt s' → inv s'.
Proof.
  intros (ns & Hlinked & Hok & Htotal & Hmode) Hinc Hshrink.
  destruct Hmode as [[? _]|[_ Hband]]; [congruence|].
  rewrite lo_eq, hi_eq in *.
  destruct ns as [|[l1 n1] ns]; [simpl in *; lia|].
  rewrite !fmap_cons in *. cbn [foldr snd data] in *.
  destruct (shrink_linked s l1 n1 ns Hlinked) as
    (s1 & Hshrink1 & Hlinked1 & Htotal1 & Hinc1 & _).
  assert (s1 = s') as -> by congruence.
  apply Forall_cons in Hok as [Hn1 Hok].
  pose proof (sum_block_ok _ Hok) as Hsum.
  unfold block_ok, MiB in *.
  rewrite llong_small in Htotal1, Hinc1 by lia.
  exists ns. split_and!; try done; [lia|].
  rewrite ?lo_eq, ?hi_eq. rewrite lo_eq in Hinc1. unfold MiB. revert Hinc1.
  destruct (Z.ltb_spec (total s - data n1) (2 ^ 30)); lia.
Qed.

Lemma iter_inv i s s' : inv s → valid_input i → iter i s = Val tt s' → inv s'.
Proof.
  intros Hinv Hi. rewrite iter_eq.
  intros ([] & s1 & Hstep & Hrep)%bind_inv.
  rewrite report_eq in Hrep. injection Hrep as <-.
  apply inv_emit.
  destruct (inv_increase _ Hinv) as [Hinc|Hinc]; rewrite Hinc in Hstep; simpl in Hstep.
  - by eapply grow_inv.
  - by eapply shrink_inv.
Qed.

Lemma loop_inv ins : ∀ s s',
  inv s → Forall valid_input ins → loop ins s = Val tt s' → inv s'.
Proof.
  induction ins as [|i ins IH]; intros s s' Hinv Hins; simpl.
  - intros [= <-]. done.
  - apply Forall_cons in Hins as [Hi Hins].
    intros ([] & s1 & Hstep & Hrest)%bind_inv.
    eapply IH; [|done|exact Hrest]. by eapply iter_inv.
Qed.

(** ** Reachable states *)

Lemma main_inv_loop a ins s :
  main a ins start = Val tt s → ∃ s0, inv s0 ∧ loop ins s0 = Val tt s.
Proof.
  unfold main. intros (r & s1 & Hnew & Hrest)%bind_inv.
  apply newNode_inv in Hnew as (b & -> & ->).
  eexists. split; [|exact Hrest].
  exists []. split_and!; [|done|done|left; by rewrite hi_eq].
  eexists _, _. simpl. split_and!; [done|apply lookup_insert_eq|done| |constructor].
  apply not_elem_of_nil.
Qed.

(** Every state [main] reaches at the end of an iteration satisfies the
    invariant. *)
Lemma main_inv a ins s :
  Forall valid_input ins → main a ins start = Val tt s → inv s.
Proof.
  intros Hins (s0 & Hinv & Hloop)%main_inv_loop. by eapply loop_inv.
Qed.

Lemma main_snoc a ins i s :
  main a ins start = Val tt s → main a (ins ++ [i]) start = iter i s.
Proof.
  unfold main. intros (r & s1 & Hnew & Hrest)%bind_inv.
  erewrite bind_val by exact Hnew.
  erewrite bind_val in Hrest |- * by reflexivity.
  erewrite bind_val in Hrest |- * by reflexivity.
  erewrite bind_val in Hrest |- * by reflexivity.
  revert Hrest. generalize (set_increase 1 (set_total 0 (set_root r s1))).
  induction ins as [|j ins IH]; intros s2; simpl.
  - intros [= ->]. unfold mbind, M_bind. by destruct (iter i s) as [[]| |].
  - intros ([] & s3 & Hj & Hrest)%bind_inv.
    erewrite bind_val by exact Hj. by apply IH.
Qed.

Lemma main_first a :
  node_ok a = true → buf_ok a = true →
  ∃ s0, main a [] start = Val tt s0 ∧ linked s0 [] ∧ total s0 = 0 ∧ increase s0 = 1.
Proof.
  intros Hn Hb. unfold main.
  assert (0 ≤ 100 ≤ INT_MAX) as Hsz by (unfold INT_MAX; lia).
  erewrite bind_val by exact (newNode_ok a 100 start Hn Hb Hsz).
  eexists. split; [reflexivity|]. split; [|done].
  eexists _, _. simpl. split_and!; [done|apply lookup_insert_eq|done| |constructor].
  apply not_elem_of_nil.
Qed.

(** An iteration from a state that satisfies the invariant, with memory for
    the block when it grows, returns. *)
Lemma iter_progress i s :
  inv s → valid_input i → node_ok (al i) = true → buf_ok (al i) = true →
  ∃ s', iter i s = Val tt s'.
Proof.
  intros Hinv Hi Hn Hb. rewrite iter_eq.
  destruct Hinv as (ns & Hlinked & Hok & Htotal & [[Hinc Hband]|[Hinc Hband]]);
    rewrite Hinc; simpl.
  - destruct (grow_linked i s ns Hlinked Hn Hb Hi) as (s1 & l' & Hgrow & _).
    erewrite bind_val by exact Hgrow. by eexists.
  - destruct ns as [|[l1 n1] ns]; [rewrite lo_eq in Hband; simpl in *; lia|].
    destruct (shrink_linked s l1 n1 ns Hlinked) as (s1 & Hshrink & _).
    erewrite bind_val by exact Hshrink. by eexists.
Qed.

(** [main] reaches the end of every iteration as long as [calloc] finds
    memory: the program runs forever. *)
Lemma main_progress a ins :
  node_ok a = true → buf_ok a = true →
  Forall valid_input ins → Forall mem_ok ins →
  ∃ s, main a ins start = Val tt s.
Proof.
  intros Hn Hb. induction ins as [|i ins IH] using rev_ind; intros Hv Hm.
  - unfold main.
    assert (0 ≤ 100 ≤ INT_MAX) as Hsz by (unfold INT_MAX; lia).
    erewrite bind_val by exact (newNode_ok a 100 start Hn Hb Hsz).
    by eexists.
  - apply Forall_app in Hv as [Hv Hi]. apply Forall_app in Hm as [Hm Hmi].
    apply Forall_inv in Hi. apply Forall_inv in Hmi as [Hni Hbi].
    destruct (IH Hv Hm) as [s Hs].
    rewrite (main_snoc _ _ _ _ Hs).
    apply iter_progress; try done. by eapply main_inv.
Qed.

Lemma three_steps_valid : Forall valid_input three_steps.
Proof. repeat constructor; simpl; unfold INT_MAX; lia. Qed.

Lemma three_steps_mem_ok : Forall mem_ok three_steps.
Proof. repeat constructor. Qed.

Lemma big_valid : valid_input big.
Proof. unfold valid_input, INT_MAX. simpl. lia. Qed.

(** Up to 64 growth steps of 256 MiB stay in growing mode: the total is at
    most 16 GiB. *)
Lemma grow_run n :
  (n ≤ 64)%nat →
  ∃ s ns, main ok (replicate n big) start = Val tt s ∧ linked s ns ∧
          length ns = n ∧ total s = Z.of_nat n * 2 ^ 28 ∧ increase s = 1.
Proof.
  induction n as [|n IH]; intros Hn.
  - destruct (main_first ok eq_refl eq_refl) as (s0 & H0 & L0 & T0 & I0).
    by exists s0, [].
  - destruct IH as (s & ns & Hs & L & Hlen & T & I); [lia|].
    assert (valid_input big) as Hv by (unfold valid_input, INT_MAX; simpl; lia).
    destruct (iter_grow_linked big s ns L I (conj eq_refl eq_refl) Hv)
      as (s1 & l1 & n1 & H1 & L1 & D1 & T1 & I1).
    change (block_size (rnd big)) with (2 ^ 28) in *. rewrite T in *.
    rewrite llong_small in * by lia. rewrite hi_eq in I1.
    exists s1, ((l1, n1) :: ns). split.
    { rewrite replicate_S_end, (main_snoc _ _ _ _ Hs). exact H1. }
    split; [exact L1|]. split; [simpl; by rewrite Hlen|]. split; [lia|].
    rewrite I1.
    destruct (Z.ltb_spec (2 ^ 34) (Z.of_nat n * 2 ^ 28 + 2 ^ 28)); [lia|reflexivity].
Qed.

(** The 65th growth step of 256 MiB crosses [hi] and enters shrinking
    mode with 65 blocks linked. *)
Lemma grow_run_crosses :
  ∃ s s' ns,
    main ok (replicate 64 big) start = Val tt s ∧ increase s = 1 ∧
    iter big s = Val tt s' ∧ main ok (replicate 65 big) start = Val tt s' ∧
    linked s' ns ∧ ns ≠ [] ∧ total s' = 65 * 2 ^ 28 ∧ increase s' = 0.
Proof.
  destruct (grow_run 64) as (s & ns & Hs & L & Hlen & T & I); [lia|].
  assert (valid_input big) as Hv by (unfold valid_input, INT_MAX; simpl; lia).
  destruct (iter_grow_linked big s ns L I (conj eq_refl eq_refl) Hv)
    as (s1 & l1 & n1 & H1 & L1 & D1 & T1 & I1).
  change (block_size (rnd big)) with (2 ^ 28) in *. rewrite T in *.
  exists s, s1, ((l1, n1) :: ns).
  split; [exact Hs|]. split; [exact I|]. split; [exact H1|]. split.
  { change (replicate 65 big) with (replicate 64 big ++ [big]).
    rewrite (main_snoc _ _ _ _ Hs). exact H1. }
  split; [exact L1|]. split; [discriminate|].
  split; [rewrite T1 | rewrite I1]; reflexivity.
Qed.

(** ** Counting the values of [rand()] behind each block size *)

Lemma filter_ext_elem {A} (P1 P2 : A → Prop)
    `{!∀ x, Decision (P1 x), !∀ x, Decision (P2 x)} (l : list A) :
  (∀ x, x ∈ l → P1 x ↔ P2 x) → filter P1 l = filter P2 l.
Proof.
  induction l as [|x l IH]; intros Hext; [done|].
  rewrite !filter_cons.
  assert (P1 x ↔ P2 x) as Hx by (apply Hext, elem_of_cons; by left).
  rewrite IH by (intros y Hy; apply Hext, elem_of_cons; by right).
  destruct (decide (P1 x)), (decide (P2 x)); tauto.
Qed.

Lemma length_filter_fmap {A B} (f : A → B) (P : B → Prop)
    `{!∀ y, Decision (P y)} (l : list A) :
  length (filter P (f <$> l)) = length (filter (λ x, P (f x)) l).
Proof.
  induction l as [|x l IH]; [done|].
  rewrite fmap_cons, !filter_cons. destruct (decide (P (f x))); simpl; by rewrite IH.
Qed.

(** Among 256 consecutive residues exactly one gives each size. *)
Lemma one_residue_per_size :
  Forall (λ k, length (filter (λ j, 1 + j = k) (seqZ 0 256)) = 1%nat) (seqZ 1 256).
Proof. apply (bool_decide_unpack _). vm_compute. exact I. Qed.

Lemma count_chunk c k :
  0 ≤ c → c mod 256 = 0 → c + 255 ≤ INT_MAX → 1 ≤ k ≤ 256 →
  length (filter (λ r, block_size r = k * MiB) (seqZ c 256)) = 1%nat.
Proof.
  intros Hc Hmod Hmax Hk.
  replace c with (c + 0) at 1 by lia.
  rewrite <- fmap_add_seqZ, length_filter_fmap.
  rewrite (filter_ext_elem _ (λ j, 1 + j = k)).
  - pose proof one_residue_per_size as Hall.
    rewrite Forall_forall in Hall. apply Hall, elem_of_seqZ. lia.
  - intros j [Hj0 Hj]%elem_of_seqZ.
    rewrite block_size_eq by lia.
    replace ((c + j) mod 256) with j; [unfold MiB; lia|].
    rewrite Z.add_mod, Hmod, Z.add_0_l, Z.mod_mod, Z.mod_small by lia. done.
Qed.

Lemma count_chunks k (n : nat) :
  1 ≤ k ≤ 256 → 256 * Z.of_nat n - 1 ≤ INT_MAX →
  length (filter (λ r, block_size r = k * MiB) (seqZ 0 (256 * Z.of_nat n))) = n.
Proof.
  intros Hk. induction n as [|n IH]; intros Hmax; [done|].
  replace (256 * Z.of_nat (S n)) with (256 * Z.of_nat n + 256) by lia.
  rewrite seqZ_app, filter_app, length_app by lia.
  rewrite IH by lia. rewrite Z.add_0_l, count_chunk; try lia.
  by rewrite Z.mul_comm, Z.mod_mul.
Qed.

(** ** The report line *)

Lemma digit_is_digit n : 0 ≤ n ≤ 9 → is_digit (digit n).
Proof. intros Hn. by exists n. Qed.

Lemma string_of_uint_digits d : all_digits (NilEmpty.string_of_uint d).
Proof.
  induction d as [|d IH|d IH|d IH|d IH|d IH|d IH|d IH|d IH|d IH|d IH];
    simpl; [done|split; [|exact IH]..].
  - by exists 0.
  - by exists 1.
  - by exists 2.
  - by exists 3.
  - by exists 4.
  - by exists 5.
  - by exists 6.
  - by exists 7.
  - by exists 8.
  - by exists 9.
Qed.

Lemma decimal_digits n : all_digits (decimal n) ∧ decimal n ≠ EmptyString.
Proof.
  unfold decimal, NilZero.string_of_uint.
  destruct (N.to_uint (Z.to_N n)) eqn:Hd;
    try (split; [rewrite <- Hd at 1|]); try done.
  all: try (rewrite Hd; apply (string_of_uint_digits (_ _))).
  split; [|done]. split; [by exists 0|done].
Qed.

Lemma round_half_even_near n d :
  0 < d →
  2 * Z.abs (round_half_even n d * d - n) ≤ d ∧ (0 ≤ n → 0 ≤ round_half_even n d).
Proof.
  intros Hd. unfold round_half_even.
  pose proof (Z.div_mod n d ltac:(lia)) as Hdm.
  pose proof (Z.mod_pos_bound n d Hd) as Hr.
  assert (0 ≤ n → 0 ≤ n / d) as Hq by (intros; apply Z.div_pos; lia).
  destruct (Z.ltb_spec (2 * (n mod d)) d);
    [|destruct (Z.ltb_spec d (2 * (n mod d))); [|destruct (Z.even (n / d))]];
    nia.
Qed.

Lemma gib_num t : Qnum (gib t) = t * 1 ∧ Qden (gib t) = 1073741824%positive.
Proof. by split. Qed.

Lemma fixed2_nonneg t :
  0 ≤ t →
  ∃ c, 0 ≤ c ∧ 2 * Z.abs (c * 2 ^ 30 - 100 * t) ≤ 2 ^ 30 ∧
       fixed2 (gib t)
       = decimal (c / 100)
         +:+ String "."%char
               (String (digit (c / 10 mod 10)) (String (digit (c mod 10)) EmptyString)) ∧
       all_digits (decimal (c / 100)) ∧ decimal (c / 100) ≠ EmptyString ∧
       is_digit (digit (c / 10 mod 10)) ∧ is_digit (digit (c mod 10)).
Proof.
  intros Ht. destruct (gib_num t) as [Hnum Hden].
  exists (cents (gib t)).
  assert (cents (gib t) = round_half_even (t * 100) (2 ^ 30)) as Hc.
  { unfold cents. rewrite Hnum, Hden. f_equal. lia. }
  destruct (round_half_even_near (t * 100) (2 ^ 30) ltac:(lia)) as [Hnear Hpos].
  rewrite <- Hc in Hnear, Hpos. specialize (Hpos ltac:(lia)).
  split; [exact Hpos|]. split; [lia|]. split.
  - unfold fixed2. rewrite Hnum.
    destruct (Z.ltb_spec (t * 1) 0); [lia|].
    by rewrite Z.abs_eq by done.
  - destruct (decimal_digits (cents (gib t) / 100)) as [Hd Hne].
    split; [exact Hd|]. split; [exact Hne|].
    split; apply digit_is_digit.
    + pose proof (Z.mod_pos_bound (cents (gib t) / 10) 10 ltac:(lia)). lia.
    + pose proof (Z.mod_pos_bound (cents (gib t)) 10 ltac:(lia)). lia.
Qed.

(** * The claims of the specification *)

(** C1.  In every state the control loop reaches at the end of an iteration,
    and in the state right after the growth step of the next iteration,
    [total] is the sum of the [data] fields of the blocks linked after the
    sentinel, and it is not negative. *)
Theorem total_is_payload_sum a ins s :
  Forall valid_input ins → main a ins start = Val tt s →
  (total s = payload_sum s ∧ 0 ≤ total s) ∧
  (∀ i s1, valid_input i → increase s = 1 → grow i s = Val tt s1 →
           total s1 = payload_sum s1 ∧ 0 ≤ total s1).
Proof.
  intros Hins Hmain. pose proof (main_inv _ _ _ Hins Hmain) as Hinv.
  split; [by apply inv_payload_sum|].
  intros i s1 Hi Hinc Hgrow. apply inv_payload_sum. by eapply grow_inv.
Qed.

Lemma total_is_payload_sum_witness :
  ∃ s, main ok three_steps start = Val tt s ∧
       (total s = payload_sum s ∧ 0 ≤ total s) ∧
       (∀ i s1, valid_input i → increase s = 1 → grow i s = Val tt s1 →
                total s1 = payload_sum s1 ∧ 0 ≤ total s1).
Proof.
  destruct (main_progress ok three_steps eq_refl eq_refl
              three_steps_valid three_steps_mem_ok) as [s Hs].
  exists s. split; [exact Hs|].
  exact (total_is_payload_sum ok three_steps s three_steps_valid Hs).
Defined.

(** C2.  From the initial state (total 0, growing) three iterations with
    block sizes 10 MiB, 20 MiB and 5 MiB leave total = 35 MiB and the list
    sentinel, 5 MiB, 20 MiB, 10 MiB; a shrink step from there removes the
    5 MiB block and leaves total = 30 MiB and the list sentinel, 20 MiB,
    10 MiB. *)
Theorem head_insertion_lifo_removal :
  block_size 9 = 10 * MiB ∧ block_size 19 = 20 * MiB ∧ block_size 4 = 5 * MiB ∧
  ∃ s3 s4,
    main ok three_steps start = Val tt s3 ∧
    total s3 = 35 * MiB ∧ increase s3 = 1 ∧
    sizes s3 = [5 * MiB; 20 * MiB; 10 * MiB] ∧
    shrink s3 = Val tt s4 ∧
    total s4 = 30 * MiB ∧ sizes s4 = [20 * MiB; 10 * MiB].
Proof.
  split_and!; try reflexivity.
  destruct (main_first ok eq_refl eq_refl) as (s0 & H0 & L0 & T0 & I0).
  pose proof three_steps_valid as Hv.
  apply Forall_cons in Hv as [Hv1 Hv]. apply Forall_cons in Hv as [Hv2 Hv].
  apply Forall_cons in Hv as [Hv3 _].
  assert (∀ r, mem_ok (mkInput r ok)) as Hm by (by split).
  destruct (iter_grow_linked _ s0 [] L0 I0 (Hm _) Hv1)
    as (s1 & l1 & n1 & H1 & L1 & D1 & T1 & I1).
  rewrite T0 in T1, I1. simpl rnd in *.
  destruct (iter_grow_linked _ s1 _ L1 I1 (Hm _) Hv2)
    as (s2 & l2 & n2 & H2 & L2 & D2 & T2 & I2).
  rewrite T1 in T2, I2. simpl rnd in *.
  destruct (iter_grow_linked _ s2 _ L2 I2 (Hm _) Hv3)
    as (s3 & l3 & n3 & H3 & L3 & D3 & T3 & I3).
  rewrite T2 in T3, I3. simpl rnd in *.
  destruct (shrink_linked s3 l3 n3 _ L3) as (s4 & H4 & L4 & T4 & _).
  rewrite T3, D3 in T4.
  exists s3, s4. split_and!.
  - rewrite <- H3. rewrite <- (main_snoc ok [mkInput 9 ok; mkInput 19 ok] _ s2); [done|].
    rewrite <- H2. rewrite <- (main_snoc ok [mkInput 9 ok] _ s1); [done|].
    rewrite <- H1. by rewrite <- (main_snoc ok [] _ s0).
  - rewrite T3. reflexivity.
  - rewrite I3. reflexivity.
  - unfold sizes. rewrite (linked_blocks _ _ L3).
    rewrite !fmap_cons. cbn [snd]. by rewrite D1, D2, D3.
  - exact H4.
  - rewrite T4. reflexivity.
  - unfold sizes. rewrite (linked_blocks _ _ L4).
    rewrite !fmap_cons. cbn [snd]. by rewrite D1, D2.
Qed.

(** C3.  A shrink step on a list that holds only the sentinel prints
    [n->next is NULL] and terminates the process with exit code 1; at that
    exit [total], the mode, the root and the heap are what they were.  The
    iteration that takes the shrink branch in such a state ends the same
    way. *)
Theorem shrink_on_sentinel_only_exits s l r :
  root s = Some l → heap s !! l = Some r → next r = None →
  ∃ s',
    shrink s = Exit 1 s' ∧
    total s' = total s ∧ increase s' = increase s ∧ root s' = root s ∧
    heap s' = heap s ∧ out s' = out s ++ [Print ("n->next is NULL" +:+ LF)] ∧
    (∀ i, increase s ≠ 1 → iter i s = Exit 1 s').
Proof.
  intros Hroot Hl Hr.
  assert (shrink s = Exit 1 (emit (Print ("n->next is NULL" +:+ LF)) s)) as Hshrink.
  { unfold shrink. ret.
    unfold mbind at 1, M_bind. by rewrite Hroot, (dealloc_empty s l r). }
  eexists. split; [exact Hshrink|]. split_and!; try done.
  intros i Hinc. rewrite iter_eq.
  destruct (Z.eqb_spec (increase s) 1) as [|_]; [done|].
  unfold mbind, M_bind. by rewrite Hshrink.
Qed.

Lemma shrink_on_sentinel_only_exits_witness :
  ∃ s',
    shrink sentinel_only = Exit 1 s' ∧
    total s' = total sentinel_only ∧ increase s' = increase sentinel_only ∧
    root s' = root sentinel_only ∧ heap s' = heap sentinel_only ∧
    out s' = out sentinel_only ++ [Print ("n->next is NULL" +:+ LF)] ∧
    (∀ i, increase sentinel_only ≠ 1 → iter i sentinel_only = Exit 1 s').
Proof.
  apply (shrink_on_sentinel_only_exits sentinel_only 1%positive
           (mkNode 100 (Some (replicate 100 Byte.xff)) None)); reflexivity.
Defined.

(** C4.  An iteration in growing mode that returns has added the block size
    to [total] (without wrap-around when the old total is between 0 and
    [hi]), and it has switched to shrinking exactly when the new total
    exceeds [hi] = 2^34: above [hi] the next iteration is a shrink step, up
    to [hi] the mode is still growing and the next iteration a growth
    step. *)
Theorem growth_switches_above_hi i s s' :
  increase s = 1 → iter i s = Val tt s' →
  hi = 2 ^ 34 ∧
  total s' = llong (total s + block_size (rnd i)) ∧
  (valid_input i → 0 ≤ total s ≤ hi → total s' = total s + block_size (rnd i)) ∧
  (increase s' = 0 ↔ 2 ^ 34 < total s') ∧
  (2 ^ 34 < total s' → ∀ j, iter j s' = (shrink;; report) s') ∧
  (total s' ≤ 2 ^ 34 → increase s' = 1 ∧ ∀ j, iter j s' = (grow j;; report) s').
Proof.
  intros Hinc. rewrite iter_eq, Hinc. simpl.
  intros ([] & s1 & Hgrow & Hrep)%bind_inv.
  rewrite report_eq in Hrep. injection Hrep as <-.
  apply grow_inv_val in Hgrow as (h & Hs1). simpl in Hs1.
  set (t := llong (total s + block_size (rnd i))) in *.
  assert (total s1 = t) as Ht by (rewrite Hs1; by destruct (hi <? t)).
  assert (increase s1 = if hi <? t then 0 else 1) as Hi1.
  { rewrite Hs1. destruct (hi <? t); [done|]. simpl. done. }
  clear Hs1. rewrite hi_eq in Hi1.
  split; [reflexivity|]. split; [exact Ht|]. split_and!.
  - intros Hv Hband. simpl. rewrite Ht. unfold t. apply llong_small.
    pose proof (block_size_range _ Hv). rewrite hi_eq in Hband.
    unfold MiB in *. lia.
  - simpl. rewrite Hi1, Ht. destruct (Z.ltb_spec (2 ^ 34) t); split; try done; lia.
  - simpl. rewrite Ht. intros Hlt j. rewrite iter_eq. simpl. rewrite Hi1.
    destruct (Z.ltb_spec (2 ^ 34) t); [done | lia].
  - simpl. rewrite Ht. intros Hle.
    assert (increase s1 = 1) as ->.
    { rewrite Hi1. destruct (Z.ltb_spec (2 ^ 34) t); [lia | done]. }
    split; [done|]. intros j. rewrite iter_eq. simpl.
    assert (increase s1 = 1) as ->; [|done].
    rewrite Hi1. destruct (Z.ltb_spec (2 ^ 34) t); [lia | done].
Qed.

Lemma growth_switches_above_hi_witness :
  ∃ s s',
    main ok (replicate 64 big) start = Val tt s ∧ iter big s = Val tt s' ∧
    hi = 2 ^ 34 ∧
    total s' = llong (total s + block_size (rnd big)) ∧
    (valid_input big → 0 ≤ total s ≤ hi → total s' = total s + block_size (rnd big)) ∧
    (increase s' = 0 ↔ 2 ^ 34 < total s') ∧
    (2 ^ 34 < total s' → ∀ j, iter j s' = (shrink;; report) s') ∧
    (total s' ≤ 2 ^ 34 → increase s' = 1 ∧ ∀ j, iter j s' = (grow j;; report) s').
Proof.
  destruct grow_run_crosses as (s & s' & ns & Hs & Hinc & Hiter & _).
  exists s, s'. split; [exact Hs|]. split; [exact Hiter|].
  exact (growth_switches_above_hi big s s' Hinc Hiter).
Defined.

(** C5.  An iteration in shrinking mode that returns has removed the block
    after the sentinel and subtracted its size from [total].  When the new
    total is below [lo] = 2^30 the mode is growing, the process has slept 5
    seconds (before its report, hence before the next allocation) and the
    next iteration is a growth step; otherwise the mode is unchanged, the
    pause was of 10 microseconds and the next iteration is a shrink step. *)
Theorem shrink_switches_below_lo i s s' :
  increase s ≠ 1 → iter i s = Val tt s' →
  lo = 2 ^ 30 ∧
  ∃ l r l1 n1,
    root s = Some l ∧ heap s !! l = Some r ∧ next r = Some l1 ∧
    heap s !! l1 = Some n1 ∧ heap s' !! l1 = None ∧
    total s' = llong (total s - data n1) ∧
    (0 ≤ data n1 ≤ total s → total s < 2 ^ 63 → total s' = total s - data n1) ∧
    (total s' < 2 ^ 30 →
       increase s' = 1 ∧
       out s' = out s ++ [Sleep 5; report_line (total s')] ∧
       ∀ j, iter j s' = (grow j;; report) s') ∧
    (2 ^ 30 ≤ total s' →
       increase s' = increase s ∧
       out s' = out s ++ [Usleep 10; report_line (total s')] ∧
       ∀ j, iter j s' = (shrink;; report) s').
Proof.
  intros Hinc. rewrite iter_eq.
  destruct (Z.eqb_spec (increase s) 1) as [|_]; [done|].
  intros ([] & s1 & Hshrink & Hrep)%bind_inv.
  rewrite report_eq in Hrep. injection Hrep as <-.
  apply shrink_inv_val in Hshrink as (l & r & l1 & n1 & Hroot & Hl & Hr & Hl1 & Hs1).
  simpl in Hs1. set (t := llong (total s - data n1)) in *.
  split; [reflexivity|]. exists l, r, l1, n1.
  assert (total s1 = t) as Ht by (rewrite Hs1; by destruct (t <? lo)).
  rewrite lo_eq in Hs1.
  split_and!; try done.
  - simpl. rewrite Hs1. destruct (t <? 2 ^ 30); simpl; apply lookup_delete_eq.
  - intros Hband Hmax. simpl. rewrite Ht. unfold t. apply llong_small. lia.
  - simpl. rewrite Ht. intros Hlt.
    destruct (Z.ltb_spec t (2 ^ 30)) as [_|]; [|lia]. rewrite Hs1. simpl.
    split; [done|]. split; [by rewrite <- app_assoc|].
    intros j. by rewrite iter_eq.
  - simpl. rewrite Ht. intros Hge.
    destruct (Z.ltb_spec t (2 ^ 30)) as [|_]; [lia|]. rewrite Hs1. simpl.
    split; [done|]. split; [by rewrite <- app_assoc|].
    intros j. rewrite iter_eq. simpl.
    by destruct (Z.eqb_spec (increase s) 1).
Qed.

Lemma shrink_switches_below_lo_witness :
  ∃ s s',
    main ok (replicate 65 big) start = Val tt s ∧ iter big s = Val tt s' ∧
    lo = 2 ^ 30 ∧
    ∃ l r l1 n1,
      root s = Some l ∧ heap s !! l = Some r ∧ next r = Some l1 ∧
      heap s !! l1 = Some n1 ∧ heap s' !! l1 = None ∧
      total s' = llong (total s - data n1) ∧
      (0 ≤ data n1 ≤ total s → total s < 2 ^ 63 → total s' = total s - data n1) ∧
      (total s' < 2 ^ 30 →
         increase s' = 1 ∧
         out s' = out s ++ [Sleep 5; report_line (total s')] ∧
         ∀ j, iter j s' = (grow j;; report) s') ∧
      (2 ^ 30 ≤ total s' →
         increase s' = increase s ∧
         out s' = out s ++ [Usleep 10; report_line (total s')] ∧
         ∀ j, iter j s' = (shrink;; report) s').
Proof.
  destruct grow_run_crosses as (s0 & s & ns & _ & _ & _ & Hs & _ & _ & _ & Hinc).
  assert (inv s) as Hinv.
  { eapply main_inv; [|exact Hs]. apply Forall_replicate, big_valid. }
  destruct (iter_progress big s Hinv big_valid eq_refl eq_refl) as [s' Hiter].
  exists s, s'. split; [exact Hs|]. split; [exact Hiter|].
  apply (shrink_switches_below_lo big s s'); [|exact Hiter].
  rewrite Hinc. discriminate.
Defined.

(** A shrink step that ends below [lo], run on [one_small_block]. *)
Example shrink_to_growing :
  iter big one_small_block
  = Val tt (mkState {[1%positive := mkNode 100 None None]}
              [Sleep 5; report_line 0] (Some 1%positive) 0 1).
Proof. vm_compute. reflexivity. Qed.

(** C6.  Let [rand()] range over [0 .. rand_max], with [rand_max + 1] a
    multiple of 256 (as for glibc's 2^31 - 1 and for the minimum 32767).  A
    growth step that draws [r] creates a block of size
    [(1 + r mod 256) << 20], one of 1 MiB, 2 MiB, ..., 256 MiB, and links
    it first after the sentinel.  Each of these 256 sizes comes from the
    same number, [(rand_max + 1) / 256], of the values [rand()] can return:
    a uniform [rand()] gives a uniform block size. *)
Theorem block_sizes_uniform rand_max :
  0 ≤ rand_max ≤ INT_MAX → (rand_max + 1) mod 256 = 0 →
  (∀ i, 0 ≤ rnd i ≤ rand_max →
     let sz := block_size (rnd i) in
     sz = (1 + rnd i mod 256) ≪ 20 ∧ 0 ≤ rnd i mod 256 ≤ 255 ∧
     (∃ k, 1 ≤ k ≤ 256 ∧ sz = k * MiB) ∧
     (∀ s ns, linked s ns → mem_ok i →
        ∃ s' l' b nx,
          grow i s = Val tt s' ∧ linked s' ((l', mkNode sz b nx) :: ns))) ∧
  (∀ k, 1 ≤ k ≤ 256 →
     count_size rand_max k = Z.to_nat ((rand_max + 1) / 256) ∧
     (0 < count_size rand_max k)%nat).
Proof.
  intros Hmax Hmod. split.
  - intros i Hr sz.
    assert (valid_input i) as Hv by (unfold valid_input; lia).
    pose proof (Z.mod_pos_bound (rnd i) 256 ltac:(lia)) as Hm.
    assert (sz = (1 + rnd i mod 256) * MiB) as Hsz by (by apply block_size_eq).
    split_and!.
    + rewrite Z.shiftl_mul_pow2 by lia. exact Hsz.
    + lia.
    + lia.
    + exists (1 + rnd i mod 256). split; [lia | exact Hsz].
    + intros s ns Hlinked [Hn Hb].
      destruct (grow_linked i s ns Hlinked Hn Hb Hv) as (s' & l' & Hgrow & Hl & _).
      by eexists s', l', _, _.
  - intros k Hk.
    assert (rand_max + 1 = 256 * Z.of_nat (Z.to_nat ((rand_max + 1) / 256))) as Heq.
    { rewrite Z2Nat.id by (apply Z.div_pos; lia).
      apply Z.div_exact; [lia | exact Hmod]. }
    assert (count_size rand_max k = Z.to_nat ((rand_max + 1) / 256)) as Hcount.
    { unfold count_size. rewrite Heq at 1. apply count_chunks; lia. }
    split; [exact Hcount|]. rewrite Hcount. lia.
Qed.

Lemma block_sizes_uniform_witness :
  (∀ i, 0 ≤ rnd i ≤ 32767 →
     let sz := block_size (rnd i) in
     sz = (1 + rnd i mod 256) ≪ 20 ∧ 0 ≤ rnd i mod 256 ≤ 255 ∧
     (∃ k, 1 ≤ k ≤ 256 ∧ sz = k * MiB) ∧
     (∀ s ns, linked s ns → mem_ok i →
        ∃ s' l' b nx,
          grow i s = Val tt s' ∧ linked s' ((l', mkNode sz b nx) :: ns))) ∧
  (∀ k, 1 ≤ k ≤ 256 →
     count_size 32767 k = Z.to_nat ((32767 + 1) / 256) ∧
     (0 < count_size 32767 k)%nat).
Proof.
  apply (block_sizes_uniform 32767); [unfold INT_MAX; lia | reflexivity].
Defined.

(** Were [RAND_MAX] 1023, four values of [rand()] would give a 5 MiB block. *)
Example count_five_MiB : count_size 1023 5 = 4%nat.
Proof. vm_compute. reflexivity. Qed.

(** C7.  For every [int] size, the node [newNode] returns is new, has the
    size in [data] and no successor, and its buffer, when [calloc] gave one
    (as it must have for a positive size, or [newNode] faults), has exactly
    [sz] bytes, all [0xff].  With memory for both parts and a size that is
    not negative, [newNode] does return such a node. *)
Theorem newNode_block a sz s :
  - 2 ^ 31 ≤ sz ≤ INT_MAX →
  (∀ p s', newNode a sz s = Val p s' →
     ∃ l nd,
       p = Some l ∧ heap s !! l = None ∧ heap s' !! l = Some nd ∧
       data nd = sz ∧ next nd = None ∧
       (∀ b, buf nd = Some b →
             Z.of_nat (length b) = sz ∧ Forall (eq Byte.xff) b) ∧
       (0 < sz → is_Some (buf nd))) ∧
  (node_ok a = true → buf_ok a = true → 0 ≤ sz →
     ∃ l s',
       newNode a sz s = Val (Some l) s' ∧
       heap s' !! l
       = Some (mkNode sz (Some (replicate (Z.to_nat sz) Byte.xff)) None)).
Proof.
  intros Hsz. split.
  - intros p s'. rewrite newNode_cases.
    destruct (node_ok a); [|done].
    pose proof (fresh_heap (heap s)) as Hfresh.
    destruct (calloc_bytes (buf_ok a) (size_t sz)) as [b0|] eqn:Hb0.
    + apply calloc_bytes_inv in Hb0 as [Hpos ->]; [|done].
      rewrite fill_calloc by lia.
      intros [= <- <-]. eexists _, _. split; [reflexivity|]. split; [exact Hfresh|].
      split; [apply lookup_insert_eq|]. simpl. split_and!; try done.
      intros b [= <-]. rewrite length_replicate. split; [lia|].
      by apply Forall_replicate.
    + destruct (Z.ltb_spec 0 sz) as [|Hle]; [done|].
      intros [= <- <-]. eexists _, _. split; [reflexivity|]. split; [exact Hfresh|].
      split; [apply lookup_insert_eq|]. simpl. split_and!; try done. lia.
  - intros Hn Hb Hpos. eexists _, _. split.
    + apply newNode_ok; [done|done|lia].
    + apply lookup_insert_eq.
Qed.

Lemma newNode_block_witness :
  (∀ p s', newNode ok 100 start = Val p s' →
     ∃ l nd,
       p = Some l ∧ heap start !! l = None ∧ heap s' !! l = Some nd ∧
       data nd = 100 ∧ next nd = None ∧
       (∀ b, buf nd = Some b →
             Z.of_nat (length b) = 100 ∧ Forall (eq Byte.xff) b) ∧
       (0 < 100 → is_Some (buf nd))) ∧
  (node_ok ok = true → buf_ok ok = true → 0 ≤ 100 →
     ∃ l s',
       newNode ok 100 start = Val (Some l) s' ∧
       heap s' !! l
       = Some (mkNode 100 (Some (replicate (Z.to_nat 100) Byte.xff)) None)).
Proof.
  apply (newNode_block ok 100 start). unfold INT_MAX. lia.
Defined.

(** [newNode(3)] run on the empty heap. *)
Example newNode_three :
  newNode ok 3 start
  = Val (Some 1%positive)
      (mkState {[1%positive := mkNode 3 (Some [Byte.xff; Byte.xff; Byte.xff]) None]}
         [] None 0 0).
Proof. vm_compute. reflexivity. Qed.

(** A negative size: the buffer cannot be allocated, the loop does not run,
    and the node is returned with a [NULL] buffer. *)
Example newNode_negative :
  newNode ok (-1) start
  = Val (Some 1%positive)
      (mkState {[1%positive := mkNode (-1) None None]} [] None 0 0).
Proof. vm_compute. reflexivity. Qed.

(** C8.  Every iteration that completes, growth or shrink, prints exactly
    one line: after at most a pause, one call of [printf] with the format
    [Total size: %.2LF] and a line feed, on the value [total / 2^30].  The
    line reads [Total size: ], the integer part, a point and exactly two
    decimal digits, and the number it shows is within half a hundredth of
    [total / 2^30]. *)
Theorem report_each_iteration i s s' :
  iter i s = Val tt s' →
  let x := gib (total s') in
  (x == inject_Z (total s') / inject_Z (2 ^ 30))%Q ∧
  (∃ pause,
     out s' = out s ++ pause ++ [Printf ("Total size: %.2LF" +:+ LF) x] ∧
     pause ≫= printed = []) ∧
  stdout s' = stdout s ++ ["Total size: " +:+ fixed2 x +:+ LF] ∧
  (0 ≤ total s' →
     ∃ c, 0 ≤ c ∧ 2 * Z.abs (c * 2 ^ 30 - 100 * total s') ≤ 2 ^ 30 ∧
          fixed2 x
          = decimal (c / 100)
            +:+ String "."%char
                  (String (digit (c / 10 mod 10)) (String (digit (c mod 10)) EmptyString)) ∧
          all_digits (decimal (c / 100)) ∧ decimal (c / 100) ≠ EmptyString ∧
          is_digit (digit (c / 10 mod 10)) ∧ is_digit (digit (c mod 10))).
Proof.
  intros Hiter x.
  destruct (iter_out i s s' Hiter) as (pause & Hout & Hpause).
  assert (pause ≫= printed = []) as Hsilent by (by destruct Hpause as [->|[->| ->]]).
  split_and!.
  - reflexivity.
  - by exists pause.
  - unfold stdout. rewrite Hout, !bind_app, Hsilent. reflexivity.
  - apply fixed2_nonneg.
Qed.

Lemma report_each_iteration_witness :
  ∃ s s',
    main ok (replicate 64 big) start = Val tt s ∧ iter big s = Val tt s' ∧
    let x := gib (total s') in
    (x == inject_Z (total s') / inject_Z (2 ^ 30))%Q ∧
    (∃ pause,
       out s' = out s ++ pause ++ [Printf ("Total size: %.2LF" +:+ LF) x] ∧
       pause ≫= printed = []) ∧
    stdout s' = stdout s ++ ["Total size: " +:+ fixed2 x +:+ LF] ∧
    (0 ≤ total s' →
       ∃ c, 0 ≤ c ∧ 2 * Z.abs (c * 2 ^ 30 - 100 * total s') ≤ 2 ^ 30 ∧
            fixed2 x
            = decimal (c / 100)
              +:+ String "."%char
                    (String (digit (c / 10 mod 10)) (String (digit (c mod 10)) EmptyString)) ∧
            all_digits (decimal (c / 100)) ∧ decimal (c / 100) ≠ EmptyString ∧
            is_digit (digit (c / 10 mod 10)) ∧ is_digit (digit (c mod 10))).
Proof.
  destruct grow_run_crosses as (s & s' & ns & Hs & _ & Hiter & _).
  exists s, s'. split; [exact Hs|]. split; [exact Hiter|].
  exact (report_each_iteration big s s' Hiter).
Defined.

(** The line printed by the iteration that frees the only block. *)
Example report_after_shrink :
  stdout <$> (match iter big one_small_block with Val _ s => Some s | _ => None end)
  = Some ["Total size: 0.00" +:+ LF].
Proof. vm_compute. reflexivity. Qed.

Example report_text :
  format ("Total size: %.2LF" +:+ LF) (gib (65 * 256 * MiB)) = "Total size: 16.25" +:+ LF ∧
  format ("Total size: %.2LF" +:+ LF) (gib (35 * MiB)) = "Total size: 0.03" +:+ LF ∧
  format ("Total size: %.2LF" +:+ LF) (gib (128 * MiB)) = "Total size: 0.12" +:+ LF.
Proof. by vm_compute. Qed.

(** C9.  On a live node [ln], whenever [allocate] returns, the successor of
    [ln] is the node it has just created, at an address that was unused, with
    the requested size and the former successor of [ln] as its own.  So with
    a live sentinel a growth step never takes its fatal branch: it returns,
    or it faults for lack of memory before the check. *)
Theorem allocate_sets_successor a ln nd0 sz s :
  heap s !! ln = Some nd0 →
  (∀ s', allocate a (Some ln) sz s = Val tt s' →
     ∃ nn nd nw,
       heap s !! nn = None ∧ heap s' !! ln = Some nd ∧ next nd = Some nn ∧
       heap s' !! nn = Some nw ∧ data nw = sz ∧ next nw = next nd0) ∧
  (root s = Some ln →
     ∀ i, (∀ c s', grow i s ≠ Exit c s') ∧
          (mem_ok i → valid_input i → ∃ s', grow i s = Val tt s')).
Proof.
  intros Hln. split.
  - intros s' Hal.
    destruct (allocate_total a ln nd0 sz s Hln) as [Hf|[b Hal']]; [congruence|].
    rewrite Hal' in Hal. injection Hal as <-.
    pose proof (fresh_heap (heap s)) as Hfresh.
    assert (fresh (dom (heap s)) ≠ ln) as Hne by (intros Heq; congruence).
    eexists (fresh (dom (heap s))), _, _. simpl.
    split; [exact Hfresh|]. split.
    { rewrite lookup_insert_ne by done. apply lookup_insert_eq. }
    split; [reflexivity|]. split; [apply lookup_insert_eq|]. by split.
  - intros Hroot i. split.
    + intros c s' Hexit.
      destruct (grow_total i s ln nd0 Hroot Hln) as [Hf|[s1 Hgrow]]; congruence.
    + intros [Hn Hb] Hv.
      destruct (grow_total i s ln nd0 Hroot Hln) as [Hf|Hgrow]; [|done].
      exfalso. unfold grow in Hf. ret_in Hf.
      rewrite Hroot in Hf.
      pose proof (block_size_range _ Hv) as Hsz.
      assert (0 ≤ block_size (rnd i) ≤ INT_MAX) as Hsz'
        by (unfold MiB, INT_MAX in *; lia).
      pose proof (newNode_ok (al i) _ s Hn Hb Hsz') as Hnew. simpl in Hnew.
      pose proof (allocate_step (al i) ln nd0 _ s _ Hln Hnew) as Hal. simpl in Hal.
      erewrite bind_val in Hf by exact Hal.
      pose proof (fresh_heap (heap s)) as Hfresh.
      assert (fresh (dom (heap s)) ≠ ln) as Hne by (intros Heq; congruence).
      erewrite bind_val in Hf; cycle 1.
      { apply fmap_val, load_live. simpl.
        rewrite lookup_insert_ne by done. apply lookup_insert_eq. }
      simpl in Hf.
      do 4 ret_in Hf. simpl in Hf.
      by destruct (hi <? _).
Qed.

Lemma allocate_sets_successor_witness :
  (∀ s', allocate ok (Some 1%positive) 5 sentinel_only = Val tt s' →
     ∃ nn nd nw,
       heap sentinel_only !! nn = None ∧ heap s' !! 1%positive = Some nd ∧
       next nd = Some nn ∧ heap s' !! nn = Some nw ∧ data nw = 5 ∧
       next nw = next (mkNode 100 (Some (replicate 100 Byte.xff)) None)) ∧
  (root sentinel_only = Some 1%positive →
     ∀ i, (∀ c s', grow i sentinel_only ≠ Exit c s') ∧
          (mem_ok i → valid_input i → ∃ s', grow i sentinel_only = Val tt s')).
Proof.
  apply (allocate_sets_successor ok 1%positive
           (mkNode 100 (Some (replicate 100 Byte.xff)) None) 5 sentinel_only).
  reflexivity.
Defined.

(** [allocate] run on the sentinel alone, for a block of 5 bytes. *)
Example allocate_after_sentinel :
  allocate ok (Some 1%positive) 5 sentinel_only
  = Val tt (mkState
              {[1%positive := mkNode 100 (Some (replicate 100 Byte.xff)) (Some 2%positive);
                2%positive := mkNode 5 (Some (replicate 5 Byte.xff)) None]}
              [] (Some 1%positive) 0 0).
Proof. vm_compute. reflexivity. Qed.

(** C10.  In every state the control loop reaches from its initial state,
    no iteration exits; and when the state is in shrinking mode, [total] is
    at least [lo] = 2^30, the list holds a block after the sentinel, and
    [dealloc] returns that block's size instead of taking its fatal
    branch. *)
Theorem shrink_finds_a_block a ins s :
  Forall valid_input ins → main a ins start = Val tt s →
  (∀ i c s', iter i s ≠ Exit c s') ∧
  (increase s ≠ 1 →
     2 ^ 30 ≤ total s ∧ total s = payload_sum s ∧
     ∃ n ns s1, blocks s = n :: ns ∧ dealloc (root s) s = Val (data n) s1 ∧
                blocks s1 = ns).
Proof.
  intros Hins Hmain. pose proof (main_inv _ _ _ Hins Hmain) as Hinv.
  assert (increase s ≠ 1 →
          2 ^ 30 ≤ total s ∧ total s = payload_sum s ∧
          ∃ n ns s1, blocks s = n :: ns ∧ dealloc (root s) s = Val (data n) s1 ∧
                     blocks s1 = ns) as Hshrink.
  { intros Hinc. pose proof (inv_payload_sum _ Hinv) as [Hsum _].
    destruct Hinv as (ns & Hlinked & Hok & Htotal & [[? _]|[_ Hband]]); [done|].
    rewrite lo_eq in Hband. split; [lia|]. split; [done|].
    destruct ns as [|[l1 n1] ns]; [simpl in *; lia|].
    destruct (linked_dealloc s l1 n1 ns Hlinked) as (s1 & Hde & Hlinked1 & _).
    exists n1, (ns.*2), s1. split_and!; [|done|].
    - by rewrite (linked_blocks _ _ Hlinked).
    - by rewrite (linked_blocks _ _ Hlinked1). }
  split; [|exact Hshrink].
  intros i c s' Hexit. rewrite iter_eq in Hexit.
  destruct (Z.eqb_spec (increase s) 1) as [Hinc|Hinc].
  - destruct Hinv as (ns & (l & r & Hroot & Hl & _) & _).
    destruct (grow_total i s l r Hroot Hl) as [Hf|[s1 Hgrow]].
    + by rewrite (bind_fault _ _ _ Hf) in Hexit.
    + by rewrite (bind_val _ _ _ _ _ Hgrow) in Hexit.
  - destruct Hinv as (ns & Hlinked & Hok & Htotal & [[? _]|[_ Hband]]); [done|].
    rewrite lo_eq in Hband.
    destruct ns as [|[l1 n1] ns]; [simpl in *; lia|].
    destruct (shrink_linked s l1 n1 ns Hlinked) as (s1 & Hs1 & _).
    by rewrite (bind_val _ _ _ _ _ Hs1) in Hexit.
Qed.

Lemma shrink_finds_a_block_witness :
  ∃ s,
    main ok (replicate 65 big) start = Val tt s ∧ increase s = 0 ∧
    (∀ i c s', iter i s ≠ Exit c s') ∧
    (increase s ≠ 1 →
       2 ^ 30 ≤ total s ∧ total s = payload_sum s ∧
       ∃ n ns s1, blocks s = n :: ns ∧ dealloc (root s) s = Val (data n) s1 ∧
                  blocks s1 = ns).
Proof.
  destruct grow_run_crosses as (s0 & s & ns & _ & _ & _ & Hs & _ & _ & _ & Hinc).
  exists s. split; [exact Hs|]. split; [exact Hinc|].
  apply (shrink_finds_a_block ok (replicate 65 big) s); [|exact Hs].
  apply Forall_replicate, big_valid.
Defined.

(** * Further properties of the code *)

(** ** [printList] *)

Lemma print_node_live s l n :
  heap s !! l = Some n →
  print_node (Some l) s = Val (next n) (emit (entry (data n)) s).
Proof.
  intros Hl. unfold print_node.
  read Hl. ret.
  by erewrite fmap_val by (apply load_live; simpl; exact Hl).
Qed.

(** The walk over a list segment prints the size of each node, in order,
    and ends. *)
Lemma printList_walk fuel : ∀ p s ns,
  lseg (heap s) p ns → (length ns ≤ fuel)%nat →
  printList fuel p s
  = Some (Val tt (mkState (heap s) (out s ++ ((λ n, entry (data n)) <$> ns.*2))
                    (root s) (total s) (increase s))).
Proof.
  induction fuel as [|fuel IH]; intros p s [|[l n] ns]; simpl.
  - intros -> _. rewrite app_nil_r. by destruct s.
  - lia.
  - intros -> _. rewrite app_nil_r. by destruct s.
  - intros (-> & Hl & Hseg) Hlen.
    rewrite (print_node_live s l n Hl).
    rewrite (IH (next n) (emit (entry (data n)) s) ns) by (done || lia).
    simpl. by rewrite <- app_assoc.
Qed.

(** X1.  On a well-formed list, [printList(root)] ends once it has run its
    body for the sentinel and for every block: it prints the sentinel's
    size and then the sizes of the blocks, first block first, and changes
    nothing else of the state. *)
Theorem printList_prints_sizes s ns fuel :
  linked s ns → (length ns < fuel)%nat →
  ∃ r s',
    root s ≫= (heap s !!.) = Some r ∧
    printList fuel (root s) s = Some (Val tt s') ∧
    out s' = out s ++ (entry <$> data r :: sizes s) ∧
    heap s' = heap s ∧ root s' = root s ∧ total s' = total s ∧
    increase s' = increase s.
Proof.
  intros Hlinked Hfuel. pose proof (linked_blocks _ _ Hlinked) as Hblocks.
  destruct Hlinked as (l & r & Hroot & Hl & Hseg & _ & _).
  exists r. eexists. rewrite Hroot. split; [exact Hl|]. split.
  - apply (printList_walk fuel (Some l) s ((l, r) :: ns)); [by split|simpl; lia].
  - simpl. split_and!; try done.
    unfold sizes. rewrite Hblocks. do 2 f_equal.
    exact (list_fmap_compose data entry (ns.*2)).
Qed.

Lemma printList_prints_sizes_witness :
  ∃ r s',
    root one_small_block ≫= (heap one_small_block !!.) = Some r ∧
    printList 2 (root one_small_block) one_small_block = Some (Val tt s') ∧
    out s' = out one_small_block ++ (entry <$> data r :: sizes one_small_block) ∧
    heap s' = heap one_small_block ∧ root s' = root one_small_block ∧
    total s' = total one_small_block ∧ increase s' = increase one_small_block.
Proof.
  apply (printList_prints_sizes one_small_block
           [(2%positive, mkNode 5 None None)] 2); [|simpl; lia].
  exists 1%positive, (mkNode 100 None (Some 2%positive)).
  split; [reflexivity|]. split; [reflexivity|]. split; [by split|].
  split; [|by apply NoDup_singleton].
  intros Hin. by apply list_elem_of_singleton in Hin.
Defined.

(** [printList] run on the sentinel and one block of 5 bytes. *)
Example printList_two_nodes :
  stdout <$> (match printList 2 (root one_small_block) one_small_block with
              | Some (Val _ s) => Some s
              | _ => None
              end)
  = Some [" 100 "; " 5 "].
Proof. vm_compute. reflexivity. Qed.

(** X2.  On a list that runs into a cycle [printList] never ends: however
    many times the body may run, the loop is still running. *)
Theorem printList_cycle_never_ends s C l :
  cyclic (heap s) C → l ∈ C → ∀ fuel, printList fuel (Some l) s = None.
Proof.
  intros HC Hl fuel. revert s l HC Hl.
  induction fuel as [|fuel IH]; intros s l HC Hl; [done|].
  destruct (HC l Hl) as (n & l' & Hn & Hnext & Hl').
  simpl. rewrite (print_node_live s l n Hn), Hnext.
  by apply IH.
Qed.

Lemma printList_cycle_never_ends_witness :
  printList 1000 (Some 1%positive) self_loop = None.
Proof.
  apply (printList_cycle_never_ends self_loop {[1%positive]} 1%positive).
  - intros l ->%elem_of_singleton.
    exists (mkNode 7 None (Some 1%positive)), 1%positive.
    split; [reflexivity|]. split; [reflexivity|]. by apply elem_of_singleton.
  - by apply elem_of_singleton.
Defined.

(** ** [allocate] and [dealloc] on any heap *)

Lemma state_eq s s' :
  heap s = heap s' → out s = out s' → root s = root s' → total s = total s' →
  increase s = increase s' → s = s'.
Proof. destruct s, s'. simpl. by intros -> -> -> -> ->. Qed.

(** X3.  Insertion then removal is the identity: after [allocate(n, sz)] on
    a live node, [dealloc(n)] returns [sz] and leaves the process exactly in
    the state before the insertion, the heap included. *)
Theorem allocate_then_dealloc a ln nd0 sz s s1 :
  heap s !! ln = Some nd0 → allocate a (Some ln) sz s = Val tt s1 →
  dealloc (Some ln) s1 = Val sz s.
Proof.
  intros Hln Hal.
  destruct (allocate_total a ln nd0 sz s Hln) as [Hf|[b Hal']]; [congruence|].
  rewrite Hal' in Hal. injection Hal as <-.
  pose proof (fresh_heap (heap s)) as Hfresh.
  set (l' := fresh (dom (heap s))) in *.
  assert (l' ≠ ln) as Hne by (intros Heq; congruence).
  rewrite dealloc_cases. simpl.
  rewrite lookup_insert_ne, lookup_insert_eq by done. simpl.
  rewrite lookup_insert_eq. simpl. f_equal.
  apply state_eq; try done. simpl.
  apply map_eq. intros j.
  destruct (decide (j = l')) as [->|Hj]; [by rewrite lookup_delete_eq|].
  rewrite lookup_delete_ne by done.
  destruct (decide (j = ln)) as [->|Hj'].
  - rewrite lookup_insert_eq, Hln. by destruct nd0.
  - by rewrite !lookup_insert_ne by done.
Qed.

Lemma allocate_then_dealloc_witness :
  ∃ s1, allocate ok (Some 1%positive) 5 sentinel_only = Val tt s1 ∧
        dealloc (Some 1%positive) s1 = Val 5 sentinel_only.
Proof.
  eexists. split; [exact allocate_after_sentinel|].
  exact (allocate_then_dealloc ok 1%positive _ 5 sentinel_only _
           eq_refl allocate_after_sentinel).
Defined.

(** X4.  [allocate] on a live node adds exactly one node to the heap: every
    node that was allocated keeps its address and content, except that the
    successor of [n] changes; the size and the buffer of [n] are untouched,
    and so are the output and the locals of [main]. *)
Theorem allocate_keeps_other_nodes a ln nd0 sz s s' :
  heap s !! ln = Some nd0 → allocate a (Some ln) sz s = Val tt s' →
  size (heap s') = S (size (heap s)) ∧
  (∀ l nd, l ≠ ln → heap s !! l = Some nd → heap s' !! l = Some nd) ∧
  (∃ nd, heap s' !! ln = Some nd ∧ data nd = data nd0 ∧ buf nd = buf nd0) ∧
  out s' = out s ∧ root s' = root s ∧ total s' = total s ∧
  increase s' = increase s.
Proof.
  intros Hln Hal.
  destruct (allocate_total a ln nd0 sz s Hln) as [Hf|[b Hal']]; [congruence|].
  rewrite Hal' in Hal. injection Hal as <-.
  pose proof (fresh_heap (heap s)) as Hfresh.
  set (l' := fresh (dom (heap s))) in *.
  assert (l' ≠ ln) as Hne by (intros Heq; congruence).
  simpl. split_and!; try done.
  - rewrite map_size_insert_None by (by rewrite lookup_insert_ne).
    f_equal. apply map_size_insert_Some. by eexists.
  - intros l nd Hl Hnd.
    assert (l ≠ l') by (intros ->; congruence).
    by rewrite !lookup_insert_ne.
  - eexists. rewrite lookup_insert_ne, lookup_insert_eq by done. done.
Qed.

Lemma allocate_keeps_other_nodes_witness :
  ∃ s',
    allocate ok (Some 1%positive) 5 one_small_block = Val tt s' ∧
    size (heap s') = S (size (heap one_small_block)) ∧
    (∀ l nd, l ≠ 1%positive → heap one_small_block !! l = Some nd →
             heap s' !! l = Some nd) ∧
    (∃ nd, heap s' !! 1%positive = Some nd ∧
           data nd = data (mkNode 100 None (Some 2%positive)) ∧
           buf nd = buf (mkNode 100 None (Some 2%positive))) ∧
    out s' = out one_small_block ∧ root s' = root one_small_block ∧
    total s' = total one_small_block ∧ increase s' = increase one_small_block.
Proof.
  assert (∃ s', allocate ok (Some 1%positive) 5 one_small_block = Val tt s')
    as [s' Hal] by (vm_compute; by eexists).
  exists s'. split; [exact Hal|].
  exact (allocate_keeps_other_nodes ok 1%positive _ 5 one_small_block s' eq_refl Hal).
Defined.



(** X6.  [dealloc] ends the process only on an empty list and only with
    code 1: when it exits, [n] was live and had no successor, and the one
    change to the state is the diagnostic on standard output.  It faults
    exactly when [n], or its successor, is [NULL] or not allocated. *)
Theorem dealloc_exit_means_empty n s :
  (∀ c s', dealloc n s = Exit c s' →
     c = 1 ∧ s' = emit (Print ("n->next is NULL" +:+ LF)) s ∧
     ∃ l r, n = Some l ∧ heap s !! l = Some r ∧ next r = None) ∧
  (dealloc n s = Fault ↔
     n ≫= (heap s !!.) = None ∨
     ∃ r l1, n ≫= (heap s !!.) = Some r ∧ next r = Some l1 ∧ heap s !! l1 = None).
Proof.
  rewrite dealloc_cases. destruct n as [l|]; simpl.
  - destruct (heap s !! l) as [r|] eqn:Hl.
    + destruct (next r) as [l1|] eqn:Hr.
      * destruct (heap s !! l1) as [n1|] eqn:Hl1.
        -- split; [done|]. split; [done|].
           intros [|(r' & l1' & [= <-] & Hr' & Hl1')]; [done|].
           rewrite Hr in Hr'. injection Hr' as <-. congruence.
        -- split; [done|]. split; [|done]. intros _. right. by exists r, l1.
      * split.
        -- intros c s' [= <- <-]. split; [done|]. split; [done|]. by exists l, r.
        -- split; [done|]. intros [|(r' & l1' & [= <-] & Hr' & _)]; [done|congruence].
    + split; [done|]. split; [|done]. intros _. by left.
  - split; [done|]. split; [|done]. intros _. by left.
Qed.

(** ** The shape of the heap in the states [main] reaches *)

(** A growth step with memory, on a live sentinel: the state it leaves. *)
Lemma grow_step i s l r :
  root s = Some l → heap s !! l = Some r → mem_ok i → valid_input i →
  let sz := block_size (rnd i) in
  let l' := fresh (dom (heap s)) in
  let t := llong (total s + sz) in
  let s1 :=
    set_total t
      (set_heap (<[l' := mkNode sz (Some (replicate (Z.to_nat sz) Byte.xff)) (next r)]>
                   (<[l := mkNode (data r) (buf r) (Some l')]> (heap s))) s) in
  grow i s = Val tt (if hi <? t then set_increase 0 s1 else s1).
Proof.
  intros Hroot Hl [Hn Hb] Hv sz l' t s1.
  pose proof (block_size_range _ Hv) as Hsz.
  assert (0 ≤ sz ≤ INT_MAX) as Hsz' by (unfold sz, MiB, INT_MAX in *; lia).
  pose proof (newNode_ok (al i) sz s Hn Hb Hsz') as Hnew. simpl in Hnew.
  pose proof (allocate_step (al i) l r sz s _ Hl Hnew) as Hal. simpl in Hal.
  pose proof (fresh_heap (heap s)) as Hfresh. fold l' in Hnew, Hal, Hfresh.
  assert (l' ≠ l) as Hne by (intros Heq; congruence).
  unfold grow. fold sz. ret. rewrite Hroot.
  erewrite bind_val by exact Hal.
  erewrite bind_val; cycle 1.
  { apply fmap_val, load_live. simpl.
    rewrite lookup_insert_ne by done. apply lookup_insert_eq. }
  simpl. do 4 ret. simpl. fold t.
  by destruct (hi <? t).
Qed.

Lemma fresh_first : fresh (dom (heap start)) = 1%positive.
Proof. reflexivity. Qed.

Lemma tidy_heap s s' : heap s' = heap s → root s' = root s → tidy s → tidy s'.
Proof. unfold tidy. by intros -> ->. Qed.

Lemma grow_tidy i s s' : tidy s → valid_input i → grow i s = Val tt s' → tidy s'.
Proof.
  intros (r & ns & Hroot & Hl & Hdata & Hfull & Hseg & Hnotin & Hnd & Hfulls & Hdom)
    Hv Hgrow.
  pose proof (grow_val_ok _ _ _ Hv Hgrow) as Hm.
  pose proof (grow_step i s 1%positive r Hroot Hl Hm Hv) as Hstep. simpl in Hstep.
  pose proof (fresh_heap (heap s)) as Hfresh.
  set (l' := fresh (dom (heap s))) in *.
  set (sz := block_size (rnd i)) in *.
  set (h' := <[l' := mkNode sz (Some (replicate (Z.to_nat sz) Byte.xff)) (next r)]>
               (<[1%positive := mkNode (data r) (buf r) (Some l')]> (heap s))) in *.
  assert (heap s' = h' ∧ root s' = root s) as [Hheap Hroot'].
  { rewrite Hstep in Hgrow. injection Hgrow as <-. by destruct (hi <? _). }
  assert (l' ≠ 1%positive) as Hne.
  { intros Heq. rewrite Heq in Hfresh. unfold loc in *. congruence. }
  assert (l' ∉ ns.*1) as Hl'.
  { intros Hin. apply not_elem_of_dom in Hfresh. apply Hfresh.
    rewrite Hdom. apply elem_of_union_r, elem_of_list_to_set, Hin. }
  exists (mkNode (data r) (buf r) (Some l')),
    ((l', mkNode sz (Some (replicate (Z.to_nat sz) Byte.xff)) (next r)) :: ns).
  rewrite Hheap, Hroot'. split; [exact Hroot|]. split.
  { unfold h'. rewrite lookup_insert_ne by done. apply lookup_insert_eq. }
  split; [exact Hdata|]. split; [exact Hfull|]. split.
  { split; [done|]. split; [apply lookup_insert_eq|]. simpl.
    eapply lseg_frame; [exact Hseg|]. intros l0 Hl0. unfold h'.
    assert (l' ≠ l0) by (intros Heq; apply Hl'; by rewrite Heq).
    assert (1%positive ≠ l0) by (intros Heq; apply Hnotin; by rewrite Heq).
    by rewrite !lookup_insert_ne. }
  split; [apply not_elem_of_cons; split; [by apply not_eq_sym | exact Hnotin]|].
  split; [by apply NoDup_cons|].
  split; [by apply Forall_cons|].
  unfold h'. rewrite !dom_insert_L, Hdom. simpl.
  apply set_eq. intros x. rewrite !elem_of_union. tauto.
Qed.

Lemma shrink_tidy s s' : tidy s → shrink s = Val tt s' → tidy s'.
Proof.
  intros (r & ns & Hroot & Hl & Hdata & Hfull & Hseg & Hnotin & Hnd & Hfulls & Hdom)
    Hshrink.
  apply shrink_inv_val in Hshrink as (l & r0 & l1 & n1 & Hroot0 & Hl0 & Hr0 & Hl1 & Hs').
  rewrite Hroot in Hroot0. injection Hroot0 as <-.
  unfold loc in *. rewrite Hl in Hl0. injection Hl0 as <-.
  destruct ns as [|[l1' n1'] ns]; simpl in Hseg; [congruence|].
  destruct Hseg as (Hr & Hl1' & Hseg).
  assert (l1' = l1) as -> by congruence.
  assert (n1' = n1) as -> by (unfold loc, ptr in *; congruence).
  cbn [fmap list_fmap fst snd] in Hnotin, Hnd, Hfulls, Hdom.
  apply not_elem_of_cons in Hnotin as [Hne Hnotin].
  apply NoDup_cons in Hnd as [Hl1n Hnd].
  apply Forall_cons in Hfulls as [_ Hfulls].
  apply (tidy_heap (unlinked 1%positive r l1 (next n1) s)).
  { simpl in Hs'. rewrite Hs'. by destruct (_ <? lo). }
  { simpl in Hs'. rewrite Hs'. by destruct (_ <? lo). }
  exists (mkNode (data r) (buf r) (next n1)), ns. simpl.
  split; [exact Hroot|]. split.
  { rewrite lookup_delete_ne by (by apply not_eq_sym). apply lookup_insert_eq. }
  split; [exact Hdata|]. split; [exact Hfull|]. split.
  { eapply lseg_frame; [exact Hseg|]. intros l0 Hin.
    assert (l1 ≠ l0) by (intros Heq; apply Hl1n; by rewrite Heq).
    assert (1%positive ≠ l0) by (intros Heq; apply Hnotin; by rewrite Heq).
    rewrite lookup_delete_ne by done. by rewrite lookup_insert_ne. }
  split; [exact Hnotin|]. split; [exact Hnd|]. split; [exact Hfulls|].
  rewrite dom_delete_L, dom_insert_L. unfold loc in *. rewrite Hdom.
  apply set_eq. intros x.
  rewrite elem_of_difference, !elem_of_union, !elem_of_singleton.
  rewrite !elem_of_list_to_set, elem_of_cons.
  split.
  - intros [Hx Hx1]. destruct Hx as [Hx|[Hx|[Hx|Hx]]]; [by left|by left|done|by right].
  - intros [->|Hx]; split; [by left|done|by right; right; right|].
    intros ->. by apply Hl1n.
Qed.

Lemma iter_tidy i s s' : tidy s → valid_input i → iter i s = Val tt s' → tidy s'.
Proof.
  intros Htidy Hv. rewrite iter_eq.
  intros ([] & s1 & Hstep & Hrep)%bind_inv.
  rewrite report_eq in Hrep. injection Hrep as <-.
  apply (tidy_heap s1); [done|done|].
  destruct (increase s =? 1).
  - by eapply grow_tidy.
  - by eapply shrink_tidy.
Qed.

Lemma loop_tidy ins : ∀ s s',
  tidy s → Forall valid_input ins → loop ins s = Val tt s' → tidy s'.
Proof.
  induction ins as [|i ins IH]; intros s s' Htidy Hins; simpl.
  - by intros [= <-].
  - apply Forall_cons in Hins as [Hi Hins].
    intros ([] & s1 & Hstep & Hrest)%bind_inv.
    eapply IH; [|done|exact Hrest]. by eapply iter_tidy.
Qed.

(** The state in which [main] enters its loop. *)
Lemma main_enters_loop a ins s :
  main a ins start = Val tt s →
  ∃ s0, loop ins s0 = Val tt s ∧ tidy s0 ∧ out s0 = [] ∧ total s0 = 0 ∧
        increase s0 = 1 ∧ blocks s0 = [].
Proof.
  unfold main. intros (r & s1 & Hnew & Hrest)%bind_inv.
  rewrite newNode_cases in Hnew.
  destruct (node_ok a); [|done].
  destruct (calloc_bytes (buf_ok a) (size_t 100)) as [b0|] eqn:Hb0; [|done].
  apply calloc_bytes_inv in Hb0 as [_ ->]; [|unfold INT_MAX; lia].
  rewrite fill_calloc in Hnew by (unfold INT_MAX; lia).
  injection Hnew as <- <-.
  eexists. split; [exact Hrest|]. simpl. split; [|done].
  exists (mkNode 100 (Some (replicate (Z.to_nat 100) Byte.xff)) None), [].
  simpl. split_and!; try done.
  - apply not_elem_of_nil.
  - constructor.
Qed.

(** Every state [main] reaches is tidy. *)
Lemma main_tidy a ins s :
  Forall valid_input ins → main a ins start = Val tt s → tidy s.
Proof.
  intros Hins (s0 & Hloop & Htidy & _)%main_enters_loop. by eapply loop_tidy.
Qed.

(** X7.  No leak: in every state [main] reaches, the allocated nodes are
    the sentinel and the blocks linked after it, each exactly once; the heap
    holds one node more than the list has blocks. *)
Theorem heap_is_the_list a ins s :
  Forall valid_input ins → main a ins start = Val tt s →
  ∃ ns,
    linked s ns ∧ blocks s = ns.*2 ∧
    (∀ l, is_Some (heap s !! l) ↔ root s = Some l ∨ l ∈ ns.*1) ∧
    size (heap s) = S (length (blocks s)).
Proof.
  intros Hins Hmain.
  destruct (main_tidy _ _ _ Hins Hmain) as
    (r & ns & Hroot & Hl & _ & _ & Hseg & Hnotin & Hnd & _ & Hdom).
  assert (linked s ns) as Hlinked by (by exists 1%positive, r).
  exists ns. split; [exact Hlinked|]. split; [by apply linked_blocks|]. split.
  - intros l. rewrite <- elem_of_dom. unfold loc in *.
    rewrite Hdom, Hroot, elem_of_union, elem_of_singleton, elem_of_list_to_set.
    split; (intros [Hx|Hx]; [left; congruence | by right]).
  - rewrite (linked_blocks _ _ Hlinked), length_fmap, <- size_dom.
    unfold loc in *. rewrite Hdom.
    rewrite size_union by (apply disjoint_singleton_l; by rewrite elem_of_list_to_set).
    by rewrite size_singleton, size_list_to_set, length_fmap.
Qed.

Lemma heap_is_the_list_witness :
  ∃ s ns,
    main ok three_steps start = Val tt s ∧
    linked s ns ∧ blocks s = ns.*2 ∧
    (∀ l, is_Some (heap s !! l) ↔ root s = Some l ∨ l ∈ ns.*1) ∧
    size (heap s) = S (length (blocks s)).
Proof.
  destruct (main_progress ok three_steps eq_refl eq_refl
              three_steps_valid three_steps_mem_ok) as [s Hs].
  destruct (heap_is_the_list ok three_steps s three_steps_valid Hs) as [ns H].
  exists s, ns. split; [exact Hs | exact H].
Defined.

(** X8.  The sentinel is permanent and every buffer stays filled: in every
    state [main] reaches, [root] is still the first node allocated, with
    size 100 and its 100 bytes [0xff], and each linked block owns a buffer
    of exactly [data] bytes, all [0xff]. *)
Theorem buffers_stay_filled a ins s :
  Forall valid_input ins → main a ins start = Val tt s →
  root s = Some 1%positive ∧
  (∃ r, heap s !! 1%positive = Some r ∧ data r = 100 ∧
        buf r = Some (replicate 100 Byte.xff)) ∧
  Forall (λ n, ∃ b, buf n = Some b ∧ Z.of_nat (length b) = data n ∧
                    Forall (eq Byte.xff) b ∧ 0 < data n)
    (blocks s).
Proof.
  intros Hins Hmain.
  destruct (main_tidy _ _ _ Hins Hmain) as
    (r & ns & Hroot & Hl & Hdata & Hfull & Hseg & Hnotin & Hnd & Hfulls & _).
  destruct (main_inv _ _ _ Hins Hmain) as (ns' & Hlinked' & Hok & _).
  assert (linked s ns) as Hlinked by (by exists 1%positive, r).
  split; [exact Hroot|]. split.
  { exists r. split; [exact Hl|]. split; [exact Hdata|].
    unfold full in Hfull. by rewrite Hdata in Hfull. }
  pose proof (linked_blocks _ _ Hlinked) as Hb.
  pose proof (linked_blocks _ _ Hlinked') as Hb'.
  rewrite Hb' in Hb. rewrite <- Hb in Hfulls. rewrite Hb'.
  clear Hb Hb'. induction Hok as [|n nodes Hn Hok IH]; [constructor|].
  apply Forall_cons in Hfulls as [Hfn Hfulls].
  constructor; [|by apply IH].
  unfold block_ok, MiB in Hn. exists (replicate (Z.to_nat (data n)) Byte.xff).
  split; [exact Hfn|]. rewrite length_replicate.
  split; [lia|]. split; [by apply Forall_replicate | lia].
Qed.

Lemma buffers_stay_filled_witness :
  ∃ s,
    main ok three_steps start = Val tt s ∧
    root s = Some 1%positive ∧
    (∃ r, heap s !! 1%positive = Some r ∧ data r = 100 ∧
          buf r = Some (replicate 100 Byte.xff)) ∧
    Forall (λ n, ∃ b, buf n = Some b ∧ Z.of_nat (length b) = data n ∧
                      Forall (eq Byte.xff) b ∧ 0 < data n)
      (blocks s).
Proof.
  destruct (main_progress ok three_steps eq_refl eq_refl
              three_steps_valid three_steps_mem_ok) as [s Hs].
  exists s. split; [exact Hs|].
  exact (buffers_stay_filled ok three_steps s three_steps_valid Hs).
Defined.

(** ** Bounds and the stack discipline *)

Lemma sum_at_least (nodes : list Node) :
  Forall block_ok nodes →
  Z.of_nat (length nodes) * MiB ≤ foldr Z.add 0 (data <$> nodes).
Proof.
  induction 1 as [|n nodes Hn _ IH]; [done|].
  rewrite fmap_cons. cbn [foldr length]. unfold block_ok, MiB in *. lia.
Qed.

(** X9.  The hysteresis band: in every state [main] reaches, the mode flag
    is 0 or 1, [total] lies between 0 and 16 GiB + 256 MiB, it is at most
    16 GiB while growing and at least 1 GiB while shrinking, every linked
    block has between 1 MiB and 256 MiB, and at most 16640 blocks are
    linked. *)
Theorem total_stays_in_band a ins s :
  Forall valid_input ins → main a ins start = Val tt s →
  (increase s = 1 ∨ increase s = 0) ∧
  0 ≤ total s ≤ 2 ^ 34 + 2 ^ 28 ∧
  (increase s = 1 → total s ≤ 2 ^ 34) ∧
  (increase s = 0 → 2 ^ 30 ≤ total s) ∧
  Forall (λ d, 2 ^ 20 ≤ d ≤ 2 ^ 28) (sizes s) ∧
  Z.of_nat (length (blocks s)) ≤ 16640.
Proof.
  intros Hins Hmain.
  destruct (main_inv _ _ _ Hins Hmain) as (ns & Hlinked & Hok & Htotal & Hmode).
  pose proof (sum_at_least _ Hok) as Hlen. pose proof (sum_block_ok _ Hok) as Hpos.
  rewrite <- Htotal in Hlen, Hpos.
  rewrite lo_eq, hi_eq in Hmode. unfold MiB in *.
  unfold sizes. rewrite (linked_blocks _ _ Hlinked).
  split; [destruct Hmode as [[? _]|[? _]]; auto|].
  split; [destruct Hmode as [[_ ?]|[_ ?]]; lia|].
  split; [destruct Hmode as [[_ ?]|[? _]]; lia|].
  split; [destruct Hmode as [[? _]|[_ ?]]; lia|].
  split; [|destruct Hmode as [[_ ?]|[_ ?]]; lia].
  apply Forall_fmap. eapply Forall_impl; [exact Hok|].
  intros n Hn. unfold block_ok, MiB in Hn. simpl. lia.
Qed.

Lemma total_stays_in_band_witness :
  ∃ s,
    main ok (replicate 65 big) start = Val tt s ∧
    (increase s = 1 ∨ increase s = 0) ∧
    0 ≤ total s ≤ 2 ^ 34 + 2 ^ 28 ∧
    (increase s = 1 → total s ≤ 2 ^ 34) ∧
    (increase s = 0 → 2 ^ 30 ≤ total s) ∧
    Forall (λ d, 2 ^ 20 ≤ d ≤ 2 ^ 28) (sizes s) ∧
    Z.of_nat (length (blocks s)) ≤ 16640.
Proof.
  destruct grow_run_crosses as (s0 & s & ns & _ & _ & _ & Hs & _).
  exists s. split; [exact Hs|].
  apply (total_stays_in_band ok (replicate 65 big) s); [|exact Hs].
  apply Forall_replicate, big_valid.
Defined.

(** X10.  The list is a stack in every state [main] reaches: an iteration
    in growing mode pushes a block of the size drawn and adds it to
    [total]; an iteration in shrinking mode pops the block pushed last and
    subtracts its size.  Neither wraps around. *)
Theorem iteration_pushes_or_pops a ins s i s' :
  Forall valid_input ins → main a ins start = Val tt s →
  valid_input i → iter i s = Val tt s' →
  (increase s = 1 ∧ sizes s' = block_size (rnd i) :: sizes s ∧
   total s' = total s + block_size (rnd i)) ∨
  (increase s = 0 ∧ ∃ d, sizes s = d :: sizes s' ∧ total s' = total s - d).
Proof.
  intros Hins Hmain Hv. rewrite iter_eq.
  intros ([] & s1 & Hstep & Hrep)%bind_inv.
  rewrite report_eq in Hrep. injection Hrep as <-.
  change (sizes (emit _ s1)) with (sizes s1).
  change (total (emit _ s1)) with (total s1).
  destruct (main_inv _ _ _ Hins Hmain) as
    (ns & Hlinked & Hok & Htotal & [[Hinc Hband]|[Hinc Hband]]);
    rewrite Hinc in Hstep; simpl in Hstep; rewrite ?lo_eq, ?hi_eq in Hband.
  - left. split; [exact Hinc|].
    destruct (grow_val_ok _ _ _ Hv Hstep) as [Hn Hb].
    destruct (grow_linked i s ns Hlinked Hn Hb Hv) as
      (s1' & l' & Hgrow & Hlinked1 & _ & Htotal1 & _).
    assert (s1' = s1) as -> by congruence.
    pose proof (block_size_range _ Hv) as Hsz. unfold MiB in Hsz.
    rewrite llong_small in Htotal1 by lia. split; [|exact Htotal1].
    unfold sizes. by rewrite (linked_blocks _ _ Hlinked1), (linked_blocks _ _ Hlinked).
  - right. split; [exact Hinc|].
    destruct ns as [|[l1 n1] ns]; [simpl in *; lia|].
    destruct (shrink_linked s l1 n1 ns Hlinked) as
      (s1' & Hshrink & Hlinked1 & Htotal1 & _).
    assert (s1' = s1) as -> by congruence.
    rewrite !fmap_cons in Hok, Htotal. cbn [foldr snd] in Hok, Htotal.
    apply Forall_cons in Hok as [Hn1 Hok].
    pose proof (sum_block_ok _ Hok) as Hsum. unfold block_ok, MiB in Hn1, Hband.
    rewrite llong_small in Htotal1 by lia.
    exists (data n1). split; [|exact Htotal1].
    unfold sizes. by rewrite (linked_blocks _ _ Hlinked1), (linked_blocks _ _ Hlinked).
Qed.

Lemma iteration_pushes_or_pops_witness :
  ∃ s s',
    main ok (replicate 65 big) start = Val tt s ∧ iter big s = Val tt s' ∧
    ((increase s = 1 ∧ sizes s' = block_size (rnd big) :: sizes s ∧
      total s' = total s + block_size (rnd big)) ∨
     (increase s = 0 ∧ ∃ d, sizes s = d :: sizes s' ∧ total s' = total s - d)).
Proof.
  destruct grow_run_crosses as (s0 & s & ns & _ & _ & _ & Hs & _).
  assert (Forall valid_input (replicate 65 big)) as Hv
    by apply Forall_replicate, big_valid.
  destruct (iter_progress big s (main_inv _ _ _ Hv Hs) big_valid eq_refl eq_refl)
    as [s' Hiter].
  exists s, s'. split; [exact Hs|]. split; [exact Hiter|].
  exact (iteration_pushes_or_pops ok (replicate 65 big) s big s' Hv Hs big_valid Hiter).
Defined.

(** ** The whole run *)

Lemma loop_stdout ins : ∀ s s',
  loop ins s = Val tt s' →
  ∃ lines, stdout s' = stdout s ++ lines ∧ length lines = length ins ∧
           Forall is_report lines.
Proof.
  induction ins as [|i ins IH]; intros s s'; simpl.
  - intros [= <-]. exists []. by rewrite app_nil_r.
  - intros ([] & s1 & Hiter & Hrest)%bind_inv.
    destruct (iter_out i s s1 Hiter) as (pause & Hout & Hpause).
    destruct (IH s1 s' Hrest) as (lines & Hlines & Hlen & Hall).
    exists (("Total size: " +:+ fixed2 (gib (total s1)) +:+ LF) :: lines).
    split; [|split; [simpl; by rewrite Hlen|]].
    + rewrite Hlines. unfold stdout at 1. rewrite Hout, !bind_app.
      assert (pause ≫= printed = []) as -> by (by destruct Hpause as [->|[->| ->]]).
      by rewrite <- app_assoc.
    + constructor; [by exists (total s1) | exact Hall].
Qed.

(** X11.  The report is the only output: after [n] iterations standard
    output holds exactly [n] lines, each a [Total size: ] line; neither
    diagnostic was ever printed. *)
Theorem one_report_per_iteration a ins s :
  main a ins start = Val tt s →
  length (stdout s) = length ins ∧ Forall is_report (stdout s).
Proof.
  intros (s0 & Hloop & _ & Hout & _)%main_enters_loop.
  destruct (loop_stdout ins s0 s Hloop) as (lines & Hlines & Hlen & Hall).
  unfold stdout at 2 in Hlines. rewrite Hout in Hlines. simpl in Hlines.
  by rewrite Hlines.
Qed.

Lemma one_report_per_iteration_witness :
  ∃ s, main ok three_steps start = Val tt s ∧
       length (stdout s) = length three_steps ∧ Forall is_report (stdout s).
Proof.
  destruct (main_progress ok three_steps eq_refl eq_refl
              three_steps_valid three_steps_mem_ok) as [s Hs].
  exists s. split; [exact Hs|].
  exact (one_report_per_iteration ok three_steps s Hs).
Defined.

Lemma iter_no_exit i s c s' : inv s → iter i s ≠ Exit c s'.
Proof.
  intros Hinv Hexit. rewrite iter_eq in Hexit.
  destruct Hinv as (ns & Hlinked & Hok & Htotal & [[Hinc Hband]|[Hinc Hband]]);
    rewrite Hinc in Hexit; simpl in Hexit.
  - destruct Hlinked as (l & r & Hroot & Hl & _).
    destruct (grow_total i s l r Hroot Hl) as [Hf|[s1 Hgrow]].
    + by rewrite (bind_fault _ _ _ Hf) in Hexit.
    + by rewrite (bind_val _ _ _ _ _ Hgrow) in Hexit.
  - rewrite lo_eq in Hband.
    destruct ns as [|[l1 n1] ns]; [simpl in *; lia|].
    destruct (shrink_linked s l1 n1 ns Hlinked) as (s1 & Hs1 & _).
    by rewrite (bind_val _ _ _ _ _ Hs1) in Hexit.
Qed.

Lemma loop_no_exit ins : ∀ s c s',
  inv s → Forall valid_input ins → loop ins s ≠ Exit c s'.
Proof.
  induction ins as [|i ins IH]; intros s c s' Hinv Hins; [done|].
  apply Forall_cons in Hins as [Hi Hins]. simpl.
  unfold mbind, M_bind.
  destruct (iter i s) as [[] s1|c1 s1|] eqn:Hiter.
  - apply IH; [|done]. by eapply iter_inv.
  - by destruct (iter_no_exit i s c1 s1 Hinv).
  - done.
Qed.

(** X12.  The program never calls [exit]: whatever [rand()] returns and
    whenever [calloc] fails, no prefix of the run of [main] ends in an exit;
    and as long as [calloc] finds memory every iteration completes, so the
    run only ever stops by a fault on a failed allocation. *)
Theorem main_never_exits a ins :
  Forall valid_input ins →
  (∀ c s, main a ins start ≠ Exit c s) ∧
  (node_ok a = true → buf_ok a = true → Forall mem_ok ins →
   ∃ s, main a ins start = Val tt s).
Proof.
  intros Hins. split; [|intros Hn Hb Hm; by apply main_progress].
  intros c s. unfold main.
  destruct (newNode_total a 100 start) as [Hf|[b Hnew]].
  - by rewrite (bind_fault _ _ _ Hf).
  - erewrite bind_val by exact Hnew. do 3 ret.
    apply loop_no_exit; [|done].
    exists []. split_and!; [|done|done|left; by rewrite hi_eq].
    eexists _, _. simpl. split_and!; [done|apply lookup_insert_eq|done| |constructor].
    apply not_elem_of_nil.
Qed.

Lemma main_never_exits_witness :
  (∀ c s, main ok three_steps start ≠ Exit c s) ∧
  (node_ok ok = true → buf_ok ok = true → Forall mem_ok three_steps →
   ∃ s, main ok three_steps start = Val tt s).
Proof. exact (main_never_exits ok three_steps three_steps_valid). Defined.

(** X13.  The fill loop overwrites whatever the buffer held: run from
    index [i] on a buffer of [sz] bytes it leaves the bytes below [i] as
    they were and sets every byte from [i] on to [0xff], without changing
    the length. *)
Theorem fill_overwrites i sz b :
  0 ≤ i ≤ sz → sz ≤ INT_MAX → length b = Z.to_nat sz →
  fill (Z.to_nat (sz - i)) i sz b
  = take (Z.to_nat i) b ++ replicate (Z.to_nat (sz - i)) Byte.xff ∧
  length (fill (Z.to_nat (sz - i)) i sz b) = length b.
Proof.
  intros Hi Hmax Hlen.
  rewrite (fill_take _ i sz) by lia. split; [done|].
  rewrite length_app, length_take, length_replicate. lia.
Qed.

Lemma fill_overwrites_witness :
  fill (Z.to_nat (3 - 1)) 1 3 [Byte.x00; Byte.x01; Byte.x02]
  = take (Z.to_nat 1) [Byte.x00; Byte.x01; Byte.x02]
    ++ replicate (Z.to_nat (3 - 1)) Byte.xff ∧
  length (fill (Z.to_nat (3 - 1)) 1 3 [Byte.x00; Byte.x01; Byte.x02])
  = length [Byte.x00; Byte.x01; Byte.x02].
Proof.
  apply (fill_overwrites 1 3 [Byte.x00; Byte.x01; Byte.x02]);
    [lia | unfold INT_MAX; lia | reflexivity].
Defined.

(** ** Neither phase lasts for ever *)

Lemma iter_grows i s s' :
  inv s → valid_input i → increase s = 1 → iter i s = Val tt s' →
  total s + 2 ^ 20 ≤ total s'.
Proof.
  intros (ns & _ & _ & _ & Hmode) Hv Hinc. rewrite iter_eq, Hinc. simpl.
  intros ([] & s1 & Hgrow & Hrep)%bind_inv.
  rewrite report_eq in Hrep. injection Hrep as <-.
  apply grow_inv_val in Hgrow as (h & ->). simpl.
  destruct Hmode as [[_ Hband]|[? _]]; [|congruence].
  pose proof (block_size_range _ Hv) as Hsz. rewrite hi_eq in Hband.
  unfold MiB in Hsz.
  assert (total (if hi <? llong (total s + block_size (rnd i))
                 then set_increase 0
                        (set_total (llong (total s + block_size (rnd i))) (set_heap h s))
                 else set_total (llong (total s + block_size (rnd i))) (set_heap h s))
          = llong (total s + block_size (rnd i))) as -> by (by destruct (hi <? _)).
  rewrite llong_small by lia. lia.
Qed.

Lemma iter_shrinks i s s' :
  inv s → increase s = 0 → iter i s = Val tt s' → total s' + 2 ^ 20 ≤ total s.
Proof.
  intros (ns & Hlinked & Hok & Htotal & Hmode) Hinc. rewrite iter_eq, Hinc. simpl.
  intros ([] & s1 & Hshrink & Hrep)%bind_inv.
  rewrite report_eq in Hrep. injection Hrep as <-. simpl.
  destruct Hmode as [[? _]|[_ Hband]]; [congruence|].
  rewrite lo_eq, hi_eq in Hband. unfold MiB in Hband.
  destruct ns as [|[l1 n1] ns]; [simpl in *; lia|].
  destruct (shrink_linked s l1 n1 ns Hlinked) as (s1' & Hshrink' & _ & Htotal1 & _).
  assert (s1' = s1) as -> by congruence.
  rewrite !fmap_cons in Hok, Htotal. cbn [foldr snd] in Hok, Htotal.
  apply Forall_cons in Hok as [Hn1 Hok].
  pose proof (sum_block_ok _ Hok) as Hsum. unfold block_ok, MiB in Hn1.
  rewrite llong_small in Htotal1 by lia. lia.
Qed.

(** After [k] further iterations that all started in mode [m], [total] has
    moved by at least [k] MiB, up when growing and down when shrinking. *)
Lemma phase_moves_total a ins js m (k : nat) :
  Forall valid_input (ins ++ js) → (k ≤ length js)%nat →
  (∀ j, (j ≤ k)%nat →
        ∃ s, main a (ins ++ take j js) start = Val tt s ∧ increase s = m) →
  ∀ s0 s, main a ins start = Val tt s0 → main a (ins ++ take k js) start = Val tt s →
  (m = 1 → total s0 + Z.of_nat k * 2 ^ 20 ≤ total s) ∧
  (m = 0 → total s + Z.of_nat k * 2 ^ 20 ≤ total s0).
Proof.
  intros Hv. induction k as [|k IH]; intros Hk Hall s0 s Hs0 Hs.
  - rewrite take_0, app_nil_r in Hs. assert (s = s0) as -> by congruence. lia.
  - destruct (lookup_lt_is_Some_2 js k ltac:(lia)) as [x Hx].
    destruct (Hall k ltac:(lia)) as (sk & Hsk & Hmk).
    specialize (IH ltac:(lia) (λ j Hj, Hall j ltac:(lia)) s0 sk Hs0 Hsk).
    rewrite (take_S_r _ _ _ Hx), app_assoc, (main_snoc _ _ _ _ Hsk) in Hs.
    apply Forall_app in Hv as [Hvi Hvj].
    assert (inv sk) as Hinv.
    { eapply main_inv; [|exact Hsk].
      apply Forall_app. split; [done|]. by apply Forall_take. }
    assert (valid_input x) as Hvx.
    { rewrite Forall_forall in Hvj. by eapply Hvj, list_elem_of_lookup_2. }
    split; intros ->.
    + pose proof (iter_grows x sk s Hinv Hvx Hmk Hs). destruct IH as [IH _].
      specialize (IH eq_refl). lia.
    + pose proof (iter_shrinks x sk s Hinv Hmk Hs). destruct IH as [_ IH].
      specialize (IH eq_refl). lia.
Qed.

(** X14.  The sawtooth turns: a phase cannot last.  If the states before
    and after each of [n] consecutive iterations are all in growing mode,
    then [n ≤ 16384]; if they are all in shrinking mode, then
    [n ≤ 15616]. *)
Theorem phases_are_bounded a ins js m :
  Forall valid_input (ins ++ js) →
  (∀ j, (j ≤ length js)%nat →
        ∃ s, main a (ins ++ take j js) start = Val tt s ∧ increase s = m) →
  (m = 1 → Z.of_nat (length js) ≤ 16384) ∧
  (m = 0 → Z.of_nat (length js) ≤ 15616).
Proof.
  intros Hv Hall.
  destruct (Hall 0%nat ltac:(lia)) as (s0 & Hs0 & Hm0).
  destruct (Hall (length js) ltac:(lia)) as (s & Hs & Hm).
  rewrite take_0, app_nil_r in Hs0.
  pose proof (phase_moves_total a ins js m (length js) Hv ltac:(lia) Hall s0 s Hs0 Hs)
    as [Hup Hdown].
  rewrite firstn_all in Hs.
  assert (Forall valid_input ins) as Hvi by (by apply Forall_app in Hv as [? _]).
  destruct (main_inv _ _ _ Hvi Hs0) as (ns0 & _ & Hok0 & Ht0 & Hmode0).
  destruct (main_inv _ _ _ Hv Hs) as (ns & _ & Hok & Ht & Hmode).
  pose proof (sum_block_ok _ Hok0) as Hpos0. pose proof (sum_block_ok _ Hok) as Hpos.
  rewrite <- Ht0 in Hpos0. rewrite <- Ht in Hpos.
  rewrite lo_eq, hi_eq in Hmode0, Hmode. unfold MiB in Hmode0, Hmode.
  split; intros ->.
  - specialize (Hup eq_refl).
    destruct Hmode as [[_ ?]|[? _]]; [lia|congruence].
  - specialize (Hdown eq_refl).
    destruct Hmode as [[? _]|[_ ?]]; [congruence|].
    destruct Hmode0 as [[? _]|[_ ?]]; [congruence|]. lia.
Qed.

Lemma phases_are_bounded_witness :
  (1 = 1 → Z.of_nat (length (replicate 64 big)) ≤ 16384) ∧
  (1 = 0 → Z.of_nat (length (replicate 64 big)) ≤ 15616).
Proof.
  apply (phases_are_bounded ok [] (replicate 64 big) 1).
  - apply Forall_replicate, big_valid.
  - intros j Hj. rewrite length_replicate in Hj.
    rewrite app_nil_l, take_replicate, Nat.min_l by lia.
    destruct (grow_run j Hj) as (s & ns & Hs & _ & _ & _ & Hinc).
    exists s. split; [exact Hs | exact Hinc].
Defined.

(** ** Failed allocations *)

(** X15.  [newNode] does not check what [calloc] returns: for an [int]
    size it faults exactly when the node could not be allocated, or the
    size is positive and the buffer could not be; it never exits, and with
    a size that is not positive a missing buffer goes unnoticed. *)
Theorem newNode_faults_without_memory a sz s :
  - 2 ^ 31 ≤ sz ≤ INT_MAX →
  (newNode a sz s = Fault ↔ node_ok a = false ∨ (0 < sz ∧ buf_ok a = false)) ∧
  (∀ c s', newNode a sz s ≠ Exit c s').
Proof.
  intros Hsz. rewrite newNode_cases. split.
  - destruct (node_ok a); [|split; [by left|done]].
    destruct (calloc_bytes (buf_ok a) (size_t sz)) as [b|] eqn:Hb.
    + split; [done|]. intros [|[Hpos Hbuf]]; [done|].
      rewrite Hbuf in Hb. done.
    + destruct (Z.ltb_spec 0 sz) as [Hpos|Hle].
      * split; [|done]. intros _. right. split; [done|].
        destruct (buf_ok a); [|done].
        rewrite calloc_bytes_ok in Hb by lia. done.
      * split; [done|]. intros [|[Hpos _]]; [done|lia].
  - intros c s'. destruct (node_ok a); [|done].
    destruct (calloc_bytes _ _); [done|]. by destruct (0 <? sz).
Qed.

Lemma newNode_faults_without_memory_witness :
  (newNode (mkOracle true false) 5 start = Fault ↔
   node_ok (mkOracle true false) = false ∨
   (0 < 5 ∧ buf_ok (mkOracle true false) = false)) ∧
  (∀ c s', newNode (mkOracle true false) 5 start ≠ Exit c s').
Proof.
  apply (newNode_faults_without_memory (mkOracle true false) 5 start).
  unfold INT_MAX. lia.
Defined.

(** [newNode(5)] when [calloc] has no memory for the buffer. *)
Example newNode_no_buffer : newNode (mkOracle true false) 5 start = Fault.
Proof. vm_compute. reflexivity. Qed.

(** X16.  In the states [main] reaches, an iteration fails in one way only:
    it faults exactly when it is a growth step and [calloc] finds no memory
    for the node or for its buffer.  A shrink step always completes. *)
Theorem iteration_faults_only_without_memory a ins s i :
  Forall valid_input ins → main a ins start = Val tt s → valid_input i →
  (iter i s = Fault ↔
   increase s = 1 ∧ (node_ok (al i) = false ∨ buf_ok (al i) = false)) ∧
  (iter i s ≠ Fault → ∃ s', iter i s = Val tt s').
Proof.
  intros Hins Hmain Hv. pose proof (main_inv _ _ _ Hins Hmain) as Hinv.
  assert (iter i s ≠ Fault → ∃ s', iter i s = Val tt s') as Hval.
  { intros Hnf. destruct (iter i s) as [[] s'|c s'|] eqn:Hiter; [by eexists| |done].
    by destruct (iter_no_exit i s c s' Hinv). }
  split; [|exact Hval]. split.
  - intros Hf. rewrite iter_eq in Hf.
    destruct Hinv as (ns & Hlinked & Hok & Htotal & [[Hinc Hband]|[Hinc Hband]]);
      rewrite Hinc in Hf; simpl in Hf.
    + split; [exact Hinc|].
      destruct (node_ok (al i)) eqn:Hn; [|by left].
      destruct (buf_ok (al i)) eqn:Hb; [|by right].
      destruct (grow_linked i s ns Hlinked Hn Hb Hv) as (s1 & l' & Hgrow & _).
      by rewrite (bind_val _ _ _ _ _ Hgrow) in Hf.
    + rewrite lo_eq in Hband.
      destruct ns as [|[l1 n1] ns]; [simpl in *; lia|].
      destruct (shrink_linked s l1 n1 ns Hlinked) as (s1 & Hs1 & _).
      by rewrite (bind_val _ _ _ _ _ Hs1) in Hf.
  - intros [Hinc Hmem].
    destruct (iter i s) as [[] s'|c s'|] eqn:Hiter; [| |done].
    + exfalso. rewrite iter_eq, Hinc in Hiter. simpl in Hiter.
      apply bind_inv in Hiter as ([] & s1 & Hgrow & _).
      destruct (grow_val_ok _ _ _ Hv Hgrow) as [Hn Hb].
      destruct Hmem; congruence.
    + by destruct (iter_no_exit i s c s' Hinv).
Qed.

Lemma iteration_faults_only_without_memory_witness :
  ∃ s,
    main ok three_steps start = Val tt s ∧
    (iter (mkInput 0 (mkOracle false true)) s = Fault ↔
     increase s = 1 ∧
     (node_ok (al (mkInput 0 (mkOracle false true))) = false ∨
      buf_ok (al (mkInput 0 (mkOracle false true))) = false)) ∧
    (iter (mkInput 0 (mkOracle false true)) s ≠ Fault →
     ∃ s', iter (mkInput 0 (mkOracle false true)) s = Val tt s').
Proof.
  destruct (main_progress ok three_steps eq_refl eq_refl
              three_steps_valid three_steps_mem_ok) as [s Hs].
  exists s. split; [exact Hs|].
  apply (iteration_faults_only_without_memory ok three_steps s
           (mkInput 0 (mkOracle false true)) three_steps_valid Hs).
  unfold valid_input, INT_MAX. simpl. lia.
Defined.
